(** * The push engine of libgit2 (src/push.c): model and properties

    The functions of [src/push.c] are embedded as Rocq functions.  The
    session ([git_push]) is a record, the loops are folds that can be
    left early, and the C variable [error] is threaded explicitly: the
    value a function returns after [goto on_error] is whatever [error]
    holds at that point.

    Everything [push.c] calls but does not define (object database,
    reference database, revision walker, pack builder, transport, user
    callbacks) is a collaborator.  The outcome of each collaborator call is
    read from a record of oracles ([env]); what a successful call does to
    the state the properties observe is written out next to it.
    [giterr_set] and [giterr_clear] only keep a message for the caller and
    are left out; allocation is taken to succeed. *)

From stdpp Require Import gmap strings list.
From Stdlib Require Import ZArith Lia.

Local Open Scope Z_scope.

(** ** Return codes *)

(** libgit2 functions return [0] on success and a negative code on failure.
    [Err e] stands for the return value [- e]. *)
Inductive result (A : Type) : Type :=
  | Ok (a : A)
  | Err (e : positive).
Arguments Ok {A} a.
Arguments Err {A} e.

(** The [int] a call returns. *)
Definition ret {A : Type} (r : result A) : Z :=
  match r with
  | Ok _ => 0
  | Err e => Z.neg e
  end.

(** Modelled from the spec: the two error codes [push.c] names and
    [include/git2/errors.h] defines ("NotFound", "NonFastForward"); the
    header is not among the sources, the values are the ones libgit2 gives
    them. *)
Definition GIT_ENOTFOUND : Z := -3.
Definition GIT_ENONFASTFORWARD : Z := -11.

(** ** Object ids, objects *)

(** A [git_oid] is 20 raw bytes; read here as one number, so that the
    all-zero id is [0]. *)
Definition git_oid : Type := N.

Definition git_oid_iszero (id : git_oid) : bool := (id =? 0)%N.
Definition git_oid_equal (a b : git_oid) : bool := (a =? b)%N.

Inductive git_otype : Type :=
  | GIT_OBJ_COMMIT
  | GIT_OBJ_TREE
  | GIT_OBJ_BLOB
  | GIT_OBJ_TAG.

Global Instance git_otype_eq_dec : EqDecision git_otype.
Proof. solve_decision. Defined.

(** A loaded object.  Objects are addressed by the hash of their content,
    so the chain of targets below an annotated tag is finite: a tag object
    carries what [git_tag_target] yields for it, either the target object
    ([Tag]) or the error of the failed load ([TagDangling]). *)
Inductive git_object : Type :=
  | Commit (id : git_oid)
  | Tree (id : git_oid)
  | Blob (id : git_oid)
  | Tag (id : git_oid) (target : git_object)
  | TagDangling (id : git_oid) (e : positive).

Definition git_object_id (obj : git_object) : git_oid :=
  match obj with
  | Commit id | Tree id | Blob id | Tag id _ | TagDangling id _ => id
  end.

Definition git_object_type (obj : git_object) : git_otype :=
  match obj with
  | Commit _ => GIT_OBJ_COMMIT
  | Tree _ => GIT_OBJ_TREE
  | Blob _ => GIT_OBJ_BLOB
  | Tag _ _ | TagDangling _ _ => GIT_OBJ_TAG
  end.

(** ** The records of push.h, refspec.h and net.h that push.c reads *)

Record git_refspec : Type := {
  src : string;
  dst : string;
  force : bool
}.

Record push_spec : Type := {
  refspec : git_refspec;
  loid : git_oid;
  roid : git_oid
}.

Record push_status : Type := {
  ref : string;
  msg : option string          (* NULL: the remote accepted the update *)
}.

Record git_push_update : Type := {
  src_refname : string;
  dst_refname : string;
  u_src : git_oid;             (* [src] of git_push_update: the remote's id *)
  u_dst : git_oid              (* [dst] of git_push_update: the local id *)
}.

Record git_remote_head : Type := {
  name : string;
  oid : git_oid
}.

(** ** Pack builder and revision walker *)

(** The pack builder, as far as [push.c] drives it: the ids handed to
    [git_packbuilder_insert], in order, and the thread hint. *)
Record git_packbuilder : Type := {
  pb_objects : list git_oid;
  pb_threads : Z
}.

(** The revision walker: sorting mode, pushed ("want") and hidden ("have")
    ids, in order. *)
Record git_revwalk : Type := {
  rw_sort_time : bool;
  rw_pushed : list git_oid;
  rw_hidden : list git_oid
}.

(** ** The session *)

(** [git_remote], as far as [push.c] reads it: the advertised heads
    ([remote->refs]) and whether the connection is up. *)
Record git_remote : Type := {
  refs : list git_remote_head;
  connected : bool
}.

(** [git_push] (push.h).  [pb] is [None] when no pack builder is attached
    (before [git_packbuilder_new], after [git_packbuilder_free]). *)
Record git_push : Type := {
  remote : git_remote;
  pb : option git_packbuilder;
  specs : list push_spec;
  updates : list git_push_update;
  status : list push_status;
  unpack_ok : bool;
  report_status : bool;
  pb_parallelism : Z
}.

(** [git_remote_callbacks], the members [push.c] uses.  A callback is the
    [int] it returns for its arguments; that it was called is recorded in
    the log of the world. *)
Record git_remote_callbacks : Type := {
  pack_progress : bool;
  push_negotiation : option (list git_push_update -> Z);
  update_tips : option (string -> git_oid -> git_oid -> Z)
}.

(** What leaves the engine: calls of user callbacks and of the transport. *)
Inductive event : Type :=
  | EvNegotiation (us : list git_push_update)
  | EvTransportPush (objects : list git_oid) (ss : list push_spec)
  | EvUpdateTips (refname : string) (a b : git_oid).

(** The repository state the engine reads and writes, and the log. *)
Record world : Type := {
  w_refs : gmap string git_oid;       (* the local reference database *)
  w_log : list event
}.

(** ** Collaborators *)

Inductive refdb_op : Type :=
  | RefNameToId
  | RefLookup
  | RefDelete
  | RefCreate.

Record env : Type := {
  (* odb.c, object.c, merge.c *)
  git_odb_read_header : git_oid -> result git_otype;
  git_odb_exists : git_oid -> bool;
  git_object_lookup : git_oid -> git_otype -> result git_object;
  git_merge_base : git_oid -> git_oid -> result git_oid;
  (* pack-objects.c: failures of its calls, and the final walk *)
  packbuilder_new_fault : option positive;
  packbuilder_set_callbacks_fault : option positive;
  packbuilder_insert_fault : git_packbuilder -> git_oid -> option positive;
  git_packbuilder_insert_walk :
    git_packbuilder -> git_revwalk -> Z * git_packbuilder;
  (* revwalk.c *)
  revwalk_new_fault : option positive;
  revwalk_push_fault : git_oid -> option positive;
  revwalk_hide_fault : git_oid -> option positive;
  (* refs.c: a failure other than the name being absent *)
  refdb_fault : refdb_op -> string -> option positive;
  (* remote.c, refspec.c *)
  git_remote__matching_refspec : string -> option git_refspec;
  git_refspec_transform : git_refspec -> string -> result string;
  git_remote_connect : result unit;
  git_remote_ls : result (list git_remote_head);
  (* transport->push; [None] when the member is NULL *)
  transport_push :
    option (git_push -> option git_remote_callbacks -> Z * git_push)
}.

(** ** Loops that can be left early *)

(** What the body of a [git_vector_foreach] does at its end: go on with the
    next element ([continue], or falling off the end of the body), or leave
    the loop through [goto on_error]. *)
Inductive flow : Type :=
  | Continue
  | GotoOnError.

Fixpoint foreach {S A : Type} (body : S -> A -> flow * S) (l : list A) (s : S)
  : flow * S :=
  match l with
  | [] => (Continue, s)
  | x :: l' =>
      match body s x with
      | (Continue, s') => foreach body l' s'
      | (GotoOnError, s') => (GotoOnError, s')
      end
  end.

(** The locals of [queue_objects] that live across iterations. *)
Record qstate : Type := {
  q_pb : git_packbuilder;
  q_rw : git_revwalk;
  q_error : Z
}.

Section Enumeration.

Variable E : env.

(** [git_packbuilder_insert(pb, id, NULL)]. *)
Definition git_packbuilder_insert (pb : git_packbuilder) (id : git_oid)
  : result git_packbuilder :=
  match packbuilder_insert_fault E pb id with
  | Some e => Err e
  | None => Ok {| pb_objects := pb_objects pb ++ [id];
                  pb_threads := pb_threads pb |}
  end.

(** [git_revwalk_push(rw, id)]. *)
Definition git_revwalk_push (rw : git_revwalk) (id : git_oid)
  : result git_revwalk :=
  match revwalk_push_fault E id with
  | Some e => Err e
  | None => Ok {| rw_sort_time := rw_sort_time rw;
                  rw_pushed := rw_pushed rw ++ [id];
                  rw_hidden := rw_hidden rw |}
  end.

(** [git_revwalk_hide(rw, id)]; [queue_objects] ignores what it returns, so
    only the walker is kept. *)
Definition git_revwalk_hide (rw : git_revwalk) (id : git_oid) : git_revwalk :=
  match revwalk_hide_fault E id with
  | Some _ => rw
  | None => {| rw_sort_time := rw_sort_time rw;
               rw_pushed := rw_pushed rw;
               rw_hidden := rw_hidden rw ++ [id] |}
  end.

(** *** enqueue_tag (push.c 235-260) *)

(** The [while] loop: [obj] is the current object, the result is the
    function's return ([Ok out] for 0 with [*out] set) and the pack
    builder. *)
Fixpoint enqueue_tag_loop (pb : git_packbuilder) (obj : git_object)
  : result git_object * git_packbuilder :=
  match obj with
  | Tag id target =>
      match git_packbuilder_insert pb id with
      | Err e => (Err e, pb)
      | Ok pb' => enqueue_tag_loop pb' target
      end
  | TagDangling id e =>
      match git_packbuilder_insert pb id with
      | Err e' => (Err e', pb)
      | Ok pb' => (Err e, pb')          (* git_tag_target failed *)
      end
  | _ => (Ok obj, pb)                   (* type != GIT_OBJ_TAG *)
  end.

Definition enqueue_tag (pb : git_packbuilder) (id : git_oid)
  : result git_object * git_packbuilder :=
  match git_object_lookup E id GIT_OBJ_TAG with
  | Err e => (Err e, pb)
  | Ok obj => enqueue_tag_loop pb obj
  end.

(** *** queue_objects (push.c 262-356) *)

(** Lines 289-312: the objects of [spec] go to the walker or to the pack
    builder.  [git_odb_read_header], [git_revwalk_push] and
    [git_packbuilder_insert] are only tested for [< 0]: on their failure
    [error] keeps the value it had. *)
Definition queue_objects_seed (st : qstate) (spec : push_spec)
  : flow * qstate :=
  match git_odb_read_header E (loid spec) with
  | Err _ => (GotoOnError, st)
  | Ok type =>
      if decide (type = GIT_OBJ_TAG) then
        match enqueue_tag (q_pb st) (loid spec) with
        | (Err e, pb') =>
            (GotoOnError,
             {| q_pb := pb'; q_rw := q_rw st; q_error := Z.neg e |})
        | (Ok target, pb') =>
            if decide (git_object_type target = GIT_OBJ_COMMIT) then
              match git_revwalk_push (q_rw st) (git_object_id target) with
              | Err _ =>
                  (GotoOnError,
                   {| q_pb := pb'; q_rw := q_rw st; q_error := 0 |})
              | Ok rw' =>
                  (Continue, {| q_pb := pb'; q_rw := rw'; q_error := 0 |})
              end
            else
              match git_packbuilder_insert pb' (git_object_id target) with
              | Err _ =>
                  (GotoOnError,
                   {| q_pb := pb'; q_rw := q_rw st; q_error := 0 |})
              | Ok pb'' =>
                  (Continue,
                   {| q_pb := pb''; q_rw := q_rw st; q_error := 0 |})
              end
        end
      else
        match git_revwalk_push (q_rw st) (loid spec) with
        | Err _ => (GotoOnError, st)
        | Ok rw' =>
            (Continue,
             {| q_pb := q_pb st; q_rw := rw'; q_error := q_error st |})
        end
  end.

Definition set_error (st : qstate) (error : Z) : qstate :=
  {| q_pb := q_pb st; q_rw := q_rw st; q_error := error |}.

(** Lines 314-340: the fast-forward check of a spec that is not forced. *)
Definition queue_objects_check (st : qstate) (spec : push_spec)
  : flow * qstate :=
  if negb (force (refspec spec)) then
    if git_oid_iszero (roid spec) then (Continue, st)
    else if negb (git_odb_exists E (roid spec)) then
      (GotoOnError, set_error st GIT_ENONFASTFORWARD)
    else
      let r := git_merge_base E (loid spec) (roid spec) in
      let error := ret r in
      if (error =? GIT_ENOTFOUND)
         || match r with
            | Ok base => negb (git_oid_equal base (roid spec))
            | Err _ => false
            end
      then (GotoOnError, set_error st GIT_ENONFASTFORWARD)
      else if error <? 0 then (GotoOnError, set_error st error)
      else (Continue, set_error st error)
  else (Continue, st).

(** The body of the first loop (lines 275-341). *)
Definition queue_objects_body (st : qstate) (spec : push_spec)
  : flow * qstate :=
  if git_oid_iszero (loid spec) then (Continue, st)
  else if git_oid_equal (loid spec) (roid spec) then (Continue, st)
  else
    match queue_objects_seed st spec with
    | (GotoOnError, st') => (GotoOnError, st')
    | (Continue, st') => queue_objects_check st' spec
    end.

(** The second loop (lines 343-349): the advertised heads are hidden. *)
Definition hide_heads (heads : list git_remote_head) (rw : git_revwalk)
  : git_revwalk :=
  fold_left
    (fun rw head =>
       if git_oid_iszero (oid head) then rw
       else git_revwalk_hide rw (oid head))
    heads rw.

(** What [queue_objects] does once the first loop is through. *)
Definition queue_objects_walk (heads : list git_remote_head) (st : qstate)
  : Z * git_packbuilder :=
  git_packbuilder_insert_walk E (q_pb st) (hide_heads heads (q_rw st)).

(** The locals when the first loop is entered: a fresh walker sorted by
    time, [error = -1]. *)
Definition queue_objects_init (pb0 : git_packbuilder) : qstate :=
  {| q_pb := pb0;
     q_rw := {| rw_sort_time := true; rw_pushed := []; rw_hidden := [] |};
     q_error := -1 |}.

(** [queue_objects(push)], with [pb0] the pack builder [push->pb] points
    to: the value returned and the pack builder afterwards. *)
Definition queue_objects (push : git_push) (pb0 : git_packbuilder)
  : Z * git_packbuilder :=
  match revwalk_new_fault E with
  | Some _ => (-1, pb0)
  | None =>
      match foreach queue_objects_body (specs push)
              (queue_objects_init pb0) with
      | (GotoOnError, st) => (q_error st, q_pb st)
      | (Continue, st) => queue_objects_walk (refs (remote push)) st
      end
  end.

End Enumeration.

(** ** Adding refspecs (push.c 89-156) *)

Section Refspecs.

(** [git_refspec__parse(&s->refspec, str, false)] (refspec.c) and
    [git_revparse_single] (revparse.c), by their outcome. *)
Variable git_refspec__parse : string -> result git_refspec.
Variable git_revparse_single : string -> result git_object.

Definition check_rref (r : string) : Z :=
  if String.prefix "refs/" r then 0 else -1.

Definition check_lref (r : string) : Z :=
  match git_revparse_single r with
  | Ok _ => 0
  | Err _ => -1
  end.

(** [parse_refspec]: the spec comes from [git__calloc], both ids are
    all-zero. *)
Definition parse_refspec (str : string) : result push_spec :=
  match git_refspec__parse str with
  | Err _ => Err 1
  | Ok rs =>
      if negb (String.eqb (src rs) "") && (check_lref (src rs) <? 0) then Err 1
      else if check_rref (dst rs) <? 0 then Err 1
      else Ok {| refspec := rs; loid := 0%N; roid := 0%N |}
  end.

Definition git_push_add_refspec (push : git_push) (str : string)
  : Z * git_push :=
  match parse_refspec str with
  | Err _ => (-1, push)
  | Ok spec =>
      (0, {| remote := remote push; pb := pb push;
             specs := specs push ++ [spec];
             updates := updates push; status := status push;
             unpack_ok := unpack_ok push;
             report_status := report_status push;
             pb_parallelism := pb_parallelism push |})
  end.

End Refspecs.

(** ** The reference database *)

Section Engine.

Variable E : env.

Definition set_refs (w : world) (m : gmap string git_oid) : world :=
  {| w_refs := m; w_log := w_log w |}.

Definition log_event (w : world) (ev : event) : world :=
  {| w_refs := w_refs w; w_log := w_log w ++ [ev] |}.

(** Modelled from the spec: the reference store of section 6 (refs.c is not
    among the sources), "resolve(name) -> objectId | NotFound". *)
Definition git_reference_name_to_id (w : world) (refname : string)
  : result git_oid :=
  match refdb_fault E RefNameToId refname with
  | Some e => Err e
  | None =>
      match w_refs w !! refname with
      | Some id => Ok id
      | None => Err 3
      end
  end.

(** Modelled from the spec: "lookup(name) -> referenceHandle | NotFound";
    the handle is the name. *)
Definition git_reference_lookup (w : world) (refname : string)
  : result string :=
  match refdb_fault E RefLookup refname with
  | Some e => Err e
  | None =>
      match w_refs w !! refname with
      | Some _ => Ok refname
      | None => Err 3
      end
  end.

(** Modelled from the spec: "delete(name) -> () | NotFound", on a handle
    that [git_reference_lookup] returned. *)
Definition git_reference_delete (w : world) (refname : string)
  : result world :=
  match refdb_fault E RefDelete refname with
  | Some e => Err e
  | None => Ok (set_refs w (delete refname (w_refs w)))
  end.

(** Modelled from the spec: "create(name, id, forceOverwrite, logMessage)
    -> () | Error", called with [force = 1]. *)
Definition git_reference_create (w : world) (refname : string) (id : git_oid)
  : result world :=
  match refdb_fault E RefCreate refname with
  | Some e => Err e
  | None => Ok (set_refs w (<[refname := id]> (w_refs w)))
  end.

(** ** Work resolution (push.c 358-406) *)

(** [add_update]: the record appended to [push->updates].  Allocation is
    taken to succeed. *)
Definition add_update (spec : push_spec) : git_push_update :=
  {| src_refname := src (refspec spec);
     dst_refname := dst (refspec spec);
     u_src := roid spec;
     u_dst := loid spec |}.

(** The inner loop of [calculate_work]: the first advertised head with the
    name of the destination. *)
Definition matching_head (heads : list git_remote_head) (spec : push_spec)
  : option git_remote_head :=
  find (fun head => String.eqb (dst (refspec spec)) (name head)) heads.

(** The loop of [calculate_work] over the specs still to do.  The specs are
    updated in place; the result is the return value, the specs and the
    updates afterwards. *)
Fixpoint calculate_work_loop (w : world) (heads : list git_remote_head)
    (todo : list push_spec) (ups : list git_push_update)
  : Z * list push_spec * list git_push_update :=
  match todo with
  | [] => (0, [], ups)
  | spec :: rest =>
      match (if negb (String.eqb (src (refspec spec)) "")
             then git_reference_name_to_id w (src (refspec spec))
             else Ok (loid spec)) with
      | Err _ => (-1, spec :: rest, ups)
      | Ok l =>
          let spec' :=
            {| refspec := refspec spec;
               loid := l;
               roid := match matching_head heads spec with
                       | Some head => oid head
                       | None => roid spec
                       end |} in
          let '(error, rest', ups') :=
            calculate_work_loop w heads rest (ups ++ [add_update spec']) in
          (error, spec' :: rest', ups')
      end
  end.

Definition calculate_work (w : world) (push : git_push) : Z * git_push :=
  let '(error, specs', ups') :=
    calculate_work_loop w (refs (remote push)) (specs push) (updates push) in
  (error,
   {| remote := remote push; pb := pb push;
      specs := specs'; updates := ups'; status := status push;
      unpack_ok := unpack_ok push;
      report_status := report_status push;
      pb_parallelism := pb_parallelism push |}).

(** ** The push itself (push.c 408-487) *)

Definition set_pb (push : git_push) (p : option git_packbuilder) : git_push :=
  {| remote := remote push; pb := p;
     specs := specs push; updates := updates push; status := status push;
     unpack_ok := unpack_ok push;
     report_status := report_status push;
     pb_parallelism := pb_parallelism push |}.

Definition set_remote (push : git_push) (r : git_remote) : git_push :=
  {| remote := r; pb := pb push;
     specs := specs push; updates := updates push; status := status push;
     unpack_ok := unpack_ok push;
     report_status := report_status push;
     pb_parallelism := pb_parallelism push |}.

(** Lines 442-444 of [do_push]: enumeration, then the transport. *)
Definition do_push_send
    (tpush : git_push -> option git_remote_callbacks -> Z * git_push)
    (callbacks : option git_remote_callbacks)
    (w : world) (push : git_push) (pb0 : git_packbuilder)
  : Z * git_push * world :=
  let '(error, pb1) := queue_objects E push pb0 in
  if error <? 0 then (error, set_pb push None, w)
  else
    let '(error, push') := tpush (set_pb push (Some pb1)) callbacks in
    (error, set_pb push' None,
     log_event w (EvTransportPush (pb_objects pb1) (specs push))).

(** Lines 434-444 of [do_push]: work resolution, the negotiation callback,
    and the rest. *)
Definition do_push_work
    (tpush : git_push -> option git_remote_callbacks -> Z * git_push)
    (callbacks : option git_remote_callbacks)
    (w : world) (push : git_push) (pb0 : git_packbuilder)
  : Z * git_push * world :=
  let '(error, push1) := calculate_work w push in
  if error <? 0 then (error, set_pb push1 None, w)
  else
    match callbacks ≫= push_negotiation with
    | Some cb =>
        let error := cb (updates push1) in
        let w1 := log_event w (EvNegotiation (updates push1)) in
        if error <? 0 then (error, set_pb push1 None, w1)
        else do_push_send tpush callbacks w1 push1 pb0
    | None => do_push_send tpush callbacks w push1 pb0
    end.

(** [do_push].  Every path ends in [git_packbuilder_free(push->pb)]. *)
Definition do_push (callbacks : option git_remote_callbacks)
    (w : world) (push : git_push)
  : Z * git_push * world :=
  match transport_push E with
  | None => (-1, set_pb push None, w)
  | Some tpush =>
      match packbuilder_new_fault E with
      | Some e => (Z.neg e, set_pb push None, w)
      | None =>
          let pb0 :=
            {| pb_objects := []; pb_threads := pb_parallelism push |} in
          match (match callbacks with
                 | Some cbs =>
                     if pack_progress cbs
                     then packbuilder_set_callbacks_fault E
                     else None
                 | None => None
                 end) with
          | Some e => (Z.neg e, set_pb push None, w)
          | None => do_push_work tpush callbacks w push pb0
          end
      end
  end.

(** [filter_refs]: the advertised heads are read anew. *)
Definition filter_refs (r : git_remote) : Z * git_remote :=
  match git_remote_ls E with
  | Err _ => (-1, {| refs := []; connected := connected r |})
  | Ok heads => (0, {| refs := heads; connected := connected r |})
  end.

Definition git_push_finish (callbacks : option git_remote_callbacks)
    (w : world) (push : git_push)
  : Z * git_push * world :=
  match (if connected (remote push) then Ok tt else git_remote_connect E) with
  | Err e => (Z.neg e, push, w)
  | Ok _ =>
      let r := {| refs := refs (remote push); connected := true |} in
      let '(error, r') := filter_refs r in
      if error <? 0 then (error, set_remote push r', w)
      else
        let '(error, push', w') := do_push callbacks w (set_remote push r') in
        if error <? 0 then (error, push', w')
        else if negb (unpack_ok push') then (-1, push', w')
        else (error, push', w')
  end.

(** ** Tip reconciliation (push.c 158-229) *)

(** The locals of [git_push_update_tips] that matter after an iteration,
    and the world. *)
Record tstate : Type := {
  t_world : world;
  t_error : Z
}.

(** Lines 193-205: the tracking reference is deleted or set. *)
Definition update_remote_ref (w : world) (push_spec : push_spec)
    (remote_ref_name : string)
  : Z * world :=
  if git_oid_iszero (loid push_spec) then
    match git_reference_lookup w remote_ref_name with
    | Err e => (Z.neg e, w)
    | Ok remote_ref =>
        match git_reference_delete w remote_ref with
        | Err e => (Z.neg e, w)
        | Ok w' => (0, w')
        end
    end
  else
    match git_reference_create w remote_ref_name (loid push_spec) with
    | Err e => (Z.neg e, w)
    | Ok w' => (0, w')
    end.

(** The body of the loop over [push->status]. *)
Definition update_tips_body (push : git_push)
    (callbacks : option git_remote_callbacks)
    (st : tstate) (status : push_status)
  : flow * tstate :=
  match msg status with
  | Some _ => (Continue, st)
  | None =>
      match git_remote__matching_refspec E (ref status) with
      | None => (Continue, st)
      | Some fetch_spec =>
          match git_refspec_transform E fetch_spec (ref status) with
          | Err e =>
              (GotoOnError, {| t_world := t_world st; t_error := Z.neg e |})
          | Ok remote_ref_name =>
              match find (fun push_spec =>
                            String.eqb (dst (refspec push_spec)) (ref status))
                         (specs push) with
              | None => (Continue, {| t_world := t_world st; t_error := 0 |})
              | Some push_spec =>
                  let '(error, w) :=
                    update_remote_ref (t_world st) push_spec remote_ref_name in
                  if error <? 0 then
                    if negb (error =? GIT_ENOTFOUND) then
                      (GotoOnError, {| t_world := w; t_error := error |})
                    else
                      (* fire_callback = 0 *)
                      (Continue, {| t_world := w; t_error := error |})
                  else
                    match callbacks ≫= update_tips with
                    | Some cb =>
                        let error :=
                          cb remote_ref_name (roid push_spec) (loid push_spec) in
                        let w' :=
                          log_event w
                            (EvUpdateTips remote_ref_name
                               (roid push_spec) (loid push_spec)) in
                        if error <? 0 then
                          (GotoOnError, {| t_world := w'; t_error := error |})
                        else
                          (Continue, {| t_world := w'; t_error := error |})
                    | None => (Continue, {| t_world := w; t_error := error |})
                    end
              end
          end
      end
  end.

Definition git_push_update_tips (push : git_push)
    (callbacks : option git_remote_callbacks) (w : world)
  : Z * world :=
  match foreach (update_tips_body push callbacks) (status push)
          {| t_world := w; t_error := 0 |} with
  | (GotoOnError, st) => (t_error st, t_world st)
  | (Continue, st) => (0, t_world st)
  end.

End Engine.

(** ** Creating a session, reading the statuses (push.c 32-66, 489-503) *)

(** [git_push_new]: the session comes from [git__calloc], its three
    vectors are empty. *)
Definition git_push_new (r : git_remote) : git_push :=
  {| remote := r; pb := None;
     specs := []; updates := []; status := [];
     unpack_ok := false;
     report_status := true;
     pb_parallelism := 1 |}.

(** Modelled from the spec: [giterr_set_after_callback] (common.h is not
    among the sources) surfaces the callback's value to the caller. *)
Definition giterr_set_after_callback (error : Z) : Z := error.

(** The locals of [git_push_status_foreach], and the statuses the callback
    was called with so far. *)
Record fstate : Type := {
  f_seen : list push_status;
  f_error : Z
}.

Definition status_foreach_body (cb : string -> option string -> Z)
    (st : fstate) (s : push_status) : flow * fstate :=
  let error := cb (ref s) (msg s) in
  if negb (error =? 0) then
    (GotoOnError,
     {| f_seen := f_seen st ++ [s];
        f_error := giterr_set_after_callback error |})
  else (Continue, {| f_seen := f_seen st ++ [s]; f_error := f_error st |}).

(** [git_push_status_foreach]: the value returned and the statuses the
    callback saw. *)
Definition git_push_status_foreach (push : git_push)
    (cb : string -> option string -> Z) : Z * list push_status :=
  match foreach (status_foreach_body cb) (status push)
          {| f_seen := []; f_error := 0 |} with
  | (GotoOnError, st) => (f_error st, f_seen st)
  | (Continue, st) => (0, f_seen st)
  end.

(** * Vocabulary of the properties *)

(** The session with the specs [ss] in place of its own. *)
Definition set_specs (push : git_push) (ss : list push_spec) : git_push :=
  {| remote := remote push; pb := pb push;
     specs := ss; updates := updates push; status := status push;
     unpack_ok := unpack_ok push;
     report_status := report_status push;
     pb_parallelism := pb_parallelism push |}.

(** [tag_chain obj ids terminal]: [obj] heads a chain of annotated tags with
    ids [ids], outermost first, that ends in the non-tag object
    [terminal]; the depth of the chain is [length ids]. *)
Inductive tag_chain : git_object -> list git_oid -> git_object -> Prop :=
  | tag_chain_end obj :
      git_object_type obj <> GIT_OBJ_TAG -> tag_chain obj [] obj
  | tag_chain_tag id target ids terminal :
      tag_chain target ids terminal ->
      tag_chain (Tag id target) (id :: ids) terminal.

(** [r] is not an ancestor of [l], as the fast-forward check can tell:
    [r] is absent locally, there is no merge base, or the merge base is
    another id. *)
Definition not_ancestor (E : env) (l r : git_oid) : Prop :=
  git_odb_exists E r = false \/
  git_merge_base E l r = Err 3 \/
  exists base, git_merge_base E l r = Ok base /\ base <> r.

(** The loop is left through [on_error] with [error] holding [code]. *)
Definition fails_with (out : flow * qstate) (code : Z) : Prop :=
  fst out = GotoOnError /\ q_error (snd out) = code.

(** What work resolution makes of one spec: the local id read from the
    source reference when there is one, the remote id taken from the first
    advertised head of the destination's name when there is one. *)
Definition resolved (E : env) (w : world) (heads : list git_remote_head)
    (spec spec' : push_spec) : Prop :=
  refspec spec' = refspec spec /\
  (if negb (String.eqb (src (refspec spec)) "")
   then git_reference_name_to_id E w (src (refspec spec)) = Ok (loid spec')
   else loid spec' = loid spec) /\
  roid spec' = match matching_head heads spec with
               | Some head => oid head
               | None => roid spec
               end.

(** The source reference of [spec] is named and cannot be resolved. *)
Definition unresolvable (E : env) (w : world) (spec : push_spec) : Prop :=
  src (refspec spec) <> "" /\
  exists e, git_reference_name_to_id E w (src (refspec spec)) = Err e.

(** The reading of the spec, section 4.4: the fast-forward check runs
    before seeding, so a spec rejected as non-fast-forward leaves the
    outgoing set and the walker as they were. *)
Definition rejected_before_seeding (E : env) (st : qstate) (spec : push_spec)
  : Prop :=
  fails_with (queue_objects_body E st spec) GIT_ENONFASTFORWARD ->
  q_pb (snd (queue_objects_body E st spec)) = q_pb st /\
  q_rw (snd (queue_objects_body E st spec)) = q_rw st.

(** The transport was handed a pack. *)
Definition transmitted (w : world) : Prop :=
  exists objects ss, EvTransportPush objects ss ∈ w_log w.

(** The reading of the spec, section 4.5: any non-zero return of the
    negotiation callback aborts the push before anything is transmitted. *)
Definition nonzero_veto (E : env) (callbacks : option git_remote_callbacks)
    (w : world) (push : git_push) : Prop :=
  forall cb,
    callbacks ≫= push_negotiation = Some cb ->
    cb (updates (calculate_work E w push).2) <> 0 ->
    ~ transmitted (do_push E callbacks w push).2.

(** The reading of the spec, section 4.6, of an accepted deletion
    [status] reconciled in the world [w]: the tip callback is invoked with
    the tracking reference and the ids of the spec, after a deletion that
    succeeded or found no reference alike ... *)
Definition tip_callback_fired (E : env) (push : git_push)
    (callbacks : option git_remote_callbacks) (w : world)
    (status : push_status) (refname : string) (spec : push_spec) : Prop :=
  EvUpdateTips refname (roid spec) (loid spec) ∈
    w_log (t_world
             (update_tips_body E push callbacks
                {| t_world := w; t_error := 0 |} status).2).

(** ... and any non-zero return of the callback leaves the loop. *)
Definition tip_callback_aborts (E : env) (push : git_push)
    (callbacks : option git_remote_callbacks)
    (cb : string -> git_oid -> git_oid -> Z) (w : world)
    (status : push_status) (refname : string) (spec : push_spec) : Prop :=
  cb refname (roid spec) (loid spec) <> 0 ->
  (update_tips_body E push callbacks
     {| t_world := w; t_error := 0 |} status).1 = GotoOnError.

(** Two outcomes of the loop of [git_push_update_tips] that the function
    cannot tell apart: the same exit, the same world, and the same [error]
    when the loop was left through [on_error]. *)
Definition same_outcome (o1 o2 : flow * tstate) : Prop :=
  o1.1 = o2.1 /\
  t_world o1.2 = t_world o2.2 /\
  (o1.1 = GotoOnError -> t_error o1.2 = t_error o2.2).

(** The session with the statuses [sts] in place of its own. *)
Definition set_status (push : git_push) (sts : list push_status) : git_push :=
  {| remote := remote push; pb := pb push;
     specs := specs push; updates := updates push; status := sts;
     unpack_ok := unpack_ok push;
     report_status := report_status push;
     pb_parallelism := pb_parallelism push |}.

(** [spec] is passed over by the enumeration: a deletion, or up to
    date. *)
Definition passed_over (spec : push_spec) : Prop :=
  loid spec = 0%N \/ loid spec = roid spec.

(** From [st] to [st'] the enumeration has only added: the pack builder
    and the wants of the walker were extended at their end, the thread
    hint, the haves and the sorting are the same. *)
Definition extends (st st' : qstate) : Prop :=
  pb_objects (q_pb st) `prefix_of` pb_objects (q_pb st') /\
  pb_threads (q_pb st') = pb_threads (q_pb st) /\
  rw_pushed (q_rw st) `prefix_of` rw_pushed (q_rw st') /\
  rw_hidden (q_rw st') = rw_hidden (q_rw st) /\
  rw_sort_time (q_rw st') = rw_sort_time (q_rw st).

(** The refspec [str] is one [git_push_add_refspec] takes: it parses, its
    source is empty or names an object, its destination is under
    [refs/]. *)
Definition acceptable (parse : string -> result git_refspec)
    (revparse : string -> result git_object) (str : string)
    (rs : git_refspec) : Prop :=
  parse str = Ok rs /\
  (src rs = "" \/ exists obj, revparse (src rs) = Ok obj) /\
  String.prefix "refs/" (dst rs) = true.

(** Adding the refspecs [strs] to a session one after the other, the
    rejected ones being given up: the session afterwards. *)
Definition add_refspecs (parse : string -> result git_refspec)
    (revparse : string -> result git_object)
    (push : git_push) (strs : list string) : git_push :=
  fold_left (fun p str => (git_push_add_refspec parse revparse p str).2)
    strs push.

(** The spec [parse_refspec] makes of [str], if it takes it. *)
Definition parsed_spec (parse : string -> result git_refspec)
    (revparse : string -> result git_object) (str : string)
  : option push_spec :=
  match parse_refspec parse revparse str with
  | Ok spec => Some spec
  | Err _ => None
  end.

(** The tracking reference a status is mapped to, when there is a fetch
    refspec for its ref and the mapping succeeds. *)
Definition tracking_name (E : env) (s : push_status) : option string :=
  match git_remote__matching_refspec E (ref s) with
  | Some fetch_spec =>
      match git_refspec_transform E fetch_spec (ref s) with
      | Ok refname => Some refname
      | Err _ => None
      end
  | None => None
  end.

Definition is_update_tips (ev : event) : Prop :=
  match ev with
  | EvUpdateTips _ _ _ => True
  | _ => False
  end.

(** The repository [E] with another answer to the two questions of the
    fast-forward check: which ids exist, and what the merge base is. *)
Definition with_ancestry (E : env) (exists_ : git_oid -> bool)
    (merge_base : git_oid -> git_oid -> result git_oid) : env :=
  {| git_odb_read_header := git_odb_read_header E;
     git_odb_exists := exists_;
     git_object_lookup := git_object_lookup E;
     git_merge_base := merge_base;
     packbuilder_new_fault := packbuilder_new_fault E;
     packbuilder_set_callbacks_fault := packbuilder_set_callbacks_fault E;
     packbuilder_insert_fault := packbuilder_insert_fault E;
     git_packbuilder_insert_walk := git_packbuilder_insert_walk E;
     revwalk_new_fault := revwalk_new_fault E;
     revwalk_push_fault := revwalk_push_fault E;
     revwalk_hide_fault := revwalk_hide_fault E;
     refdb_fault := refdb_fault E;
     git_remote__matching_refspec := git_remote__matching_refspec E;
     git_refspec_transform := git_refspec_transform E;
     git_remote_connect := git_remote_connect E;
     git_remote_ls := git_remote_ls E;
     transport_push := transport_push E |}.

(** The session with the updates [us] in place of its own. *)
Definition set_updates (push : git_push) (us : list git_push_update)
  : git_push :=
  {| remote := remote push; pb := pb push;
     specs := specs push; updates := us; status := status push;
     unpack_ok := unpack_ok push;
     report_status := report_status push;
     pb_parallelism := pb_parallelism push |}.

(** What one [do_push] may add to the log: a call of the negotiation
    callback or none, then a call of the transport or none. *)
Definition push_events (evs : list event) : Prop :=
  match evs with
  | [] => True
  | [EvNegotiation _] => True
  | [EvTransportPush _ _] => True
  | [EvNegotiation _; EvTransportPush _ _] => True
  | _ => False
  end.

(** The last thing logged is a call of the transport. *)
Definition ends_in_transport (evs : list event) : Prop :=
  exists objects ss, last evs = Some (EvTransportPush objects ss).

(** The reading of the spec, section 8, of the fast-forward property for
    one spec met in the state [st]: not forced, with a non-zero local id
    other than the remote id, the enumeration fails with
    [GIT_ENONFASTFORWARD] exactly when the remote id is non-zero and not an
    ancestor, nothing being said of the seeding that comes first. *)
Definition fast_forward_as_stated (E : env) (st : qstate) (spec : push_spec)
  : Prop :=
  force (refspec spec) = false ->
  loid spec <> 0%N ->
  loid spec <> roid spec ->
  (fails_with (queue_objects_body E st spec) GIT_ENONFASTFORWARD <->
   roid spec <> 0%N /\ not_ancestor E (loid spec) (roid spec)).

(** The same reading for a spec of a session: when the remote id is
    non-zero and not an ancestor, [queue_objects] returns
    [GIT_ENONFASTFORWARD], nothing being said of the specs before it. *)
Definition fast_forward_as_stated_of_push (E : env) (push : git_push)
    (pb0 : git_packbuilder) (spec : push_spec) : Prop :=
  spec ∈ specs push ->
  force (refspec spec) = false ->
  loid spec <> 0%N ->
  loid spec <> roid spec ->
  roid spec <> 0%N /\ not_ancestor E (loid spec) (roid spec) ->
  (queue_objects E push pb0).1 = GIT_ENONFASTFORWARD.

(** The reading of the spec, section 8, of the deletion property at tip
    reconciliation: for every spec of the session with an empty source
    whose destination the remote reports as accepted, the tracking
    reference is gone afterwards. *)
Definition deletion_as_stated (E : env) (push : git_push)
    (callbacks : option git_remote_callbacks) (w : world)
    (spec : push_spec) (accepted : push_status) (refname : string) : Prop :=
  spec ∈ specs push ->
  src (refspec spec) = "" ->
  loid spec = 0%N ->
  accepted ∈ status push ->
  msg accepted = None ->
  ref accepted = dst (refspec spec) ->
  tracking_name E accepted = Some refname ->
  w_refs (git_push_update_tips E push callbacks w).2 !! refname = None.

(** [head] is the first of the advertised heads with the name [d]. *)
Definition first_head_named (heads : list git_remote_head) (d : string)
    (head : git_remote_head) : Prop :=
  exists hs1 hs2,
    heads = hs1 ++ head :: hs2 /\
    name head = d /\
    Forall (fun h => name h <> d) hs1.

(** What section 4.2 of the spec asks of one spec after work resolution:
    the refspec is the same; the local id is what the source reference
    resolves to, or the one it had when the source is empty; the remote id
    is the id of the first advertised head with the destination's name, or
    the one it had when there is no such head. *)
Definition resolved_spec (E : env) (w : world) (heads : list git_remote_head)
    (spec spec' : push_spec) : Prop :=
  refspec spec' = refspec spec /\
  (src (refspec spec) <> "" ->
   git_reference_name_to_id E w (src (refspec spec)) = Ok (loid spec')) /\
  (src (refspec spec) = "" -> loid spec' = loid spec) /\
  (forall head,
     first_head_named heads (dst (refspec spec)) head ->
     roid spec' = oid head) /\
  (Forall (fun h => name h <> dst (refspec spec)) heads ->
   roid spec' = roid spec).

(** [u] is the PushUpdate of [spec]: both names, the remote id as the old
    id and the local id as the new one. *)
Definition update_of (spec : push_spec) (u : git_push_update) : Prop :=
  src_refname u = src (refspec spec) /\
  dst_refname u = dst (refspec spec) /\
  u_src u = roid spec /\
  u_dst u = loid spec.

(** * Example repositories *)

Module Examples.

(** Ids of the objects of the examples. *)
Definition c1 : git_oid := 1%N.
Definition c2 : git_oid := 2%N.
Definition c3 : git_oid := 3%N.
Definition c4 : git_oid := 4%N.
Definition tree : git_oid := 20%N.
Definition t1 : git_oid := 11%N.
Definition t2 : git_oid := 12%N.

(** A transport that reports every spec as accepted and the pack as
    unpacked or not. *)
Definition accept_all (unpacked : bool)
    (push : git_push) (_ : option git_remote_callbacks) : Z * git_push :=
  (0, {| remote := remote push; pb := pb push;
         specs := specs push; updates := updates push;
         status := map (fun s => {| ref := dst (refspec s); msg := None |})
                       (specs push);
         unpack_ok := unpacked;
         report_status := report_status push;
         pb_parallelism := pb_parallelism push |}).

(** A repository over the object store [objects], with merge bases [base],
    fetch mappings [fetch] and advertised heads [heads]; no call fails on
    its own, the walker takes commits only. *)
Definition repo (objects : git_oid -> option git_object)
    (base : git_oid -> git_oid -> result git_oid)
    (fetch : string -> option git_refspec)
    (heads : list git_remote_head) (unpacked : bool) : env :=
  {| git_odb_read_header id :=
       match objects id with
       | Some obj => Ok (git_object_type obj)
       | None => Err 3
       end;
     git_odb_exists id := bool_decide (is_Some (objects id));
     git_object_lookup id type :=
       match objects id with
       | Some obj =>
           if decide (git_object_type obj = type) then Ok obj else Err 3
       | None => Err 3
       end;
     git_merge_base := base;
     packbuilder_new_fault := None;
     packbuilder_set_callbacks_fault := None;
     packbuilder_insert_fault _ _ := None;
     git_packbuilder_insert_walk pb rw :=
       (0, {| pb_objects := pb_objects pb ++ rw_pushed rw;
              pb_threads := pb_threads pb |});
     revwalk_new_fault := None;
     revwalk_push_fault id :=
       match objects id with
       | Some (Commit _) => None
       | _ => Some 1%positive
       end;
     revwalk_hide_fault id :=
       match objects id with
       | Some (Commit _) => None
       | _ => Some 1%positive
       end;
     refdb_fault _ _ := None;
     git_remote__matching_refspec := fetch;
     git_refspec_transform fs _ := Ok (dst fs);
     git_remote_connect := Ok tt;
     git_remote_ls := Ok heads;
     transport_push := Some (accept_all unpacked) |}.

(** Scenario D of the spec: the tag [t1] points to the tag [t2], which
    points to the commit [c4]; [c1], [c2] are commits, [tree] is a tree;
    [c3] is not in the store. *)
Definition objects (id : git_oid) : option git_object :=
  if (id =? t1)%N then Some (Tag t1 (Tag t2 (Commit c4)))
  else if (id =? t2)%N then Some (Tag t2 (Commit c4))
  else if (id =? c4)%N then Some (Commit c4)
  else if (id =? c2)%N then Some (Commit c2)
  else if (id =? c1)%N then Some (Commit c1)
  else if (id =? tree)%N then Some (Tree tree)
  else None.

(** [c1] is the parent of [c2]; nothing else is related. *)
Definition base (l r : git_oid) : result git_oid :=
  if (l =? c2)%N && (r =? c1)%N then Ok c1
  else if (l =? r)%N then Ok l
  else Err 3.

(** The fetch refspec [refs/heads/main:refs/remotes/origin/main], and the
    same for [old] and for the tag [v1]. *)
Definition fetch (r : string) : option git_refspec :=
  if String.eqb r "refs/heads/main" then
    Some {| src := r; dst := "refs/remotes/origin/main"; force := true |}
  else if String.eqb r "refs/heads/old" then
    Some {| src := r; dst := "refs/remotes/origin/old"; force := true |}
  else None.

Definition heads : list git_remote_head :=
  [ {| name := "refs/heads/main"; oid := c1 |};
    {| name := "refs/heads/old"; oid := c1 |} ].

Definition E0 : env := repo objects base fetch heads true.

Definition pb0 : git_packbuilder := {| pb_objects := []; pb_threads := 1 |}.

Definition rw0 : git_revwalk :=
  {| rw_sort_time := true; rw_pushed := []; rw_hidden := [] |}.

Definition st0 : qstate := queue_objects_init pb0.

Definition mk_spec (s d : string) (f : bool) (l r : git_oid) : push_spec :=
  {| refspec := {| src := s; dst := d; force := f |}; loid := l; roid := r |}.

Definition mk_push (ss : list push_spec) (sts : list push_status) : git_push :=
  {| remote := {| refs := heads; connected := true |};
     pb := None; specs := ss; updates := []; status := sts;
     unpack_ok := false; report_status := true; pb_parallelism := 1 |}.

(** Scenario A: [main] at [c2] over the remote's [c1]. *)
Definition spec_main : push_spec :=
  mk_spec "refs/heads/main" "refs/heads/main" false c2 c1.

(** Scenario B: [main] at [c2] over the remote's [c3], unknown locally. *)
Definition spec_unrelated : push_spec :=
  mk_spec "refs/heads/main" "refs/heads/main" false c2 c3.

(** Scenario C: the deletion of [old]. *)
Definition spec_delete : push_spec :=
  mk_spec "" "refs/heads/old" false 0%N c1.

(** Scenario D, not forced, over the remote's [c3]. *)
Definition spec_tag : push_spec :=
  mk_spec "refs/tags/v1" "refs/tags/v1" false t1 c3.

(** A lightweight tag on a tree, over the remote's [c3]. *)
Definition spec_tree : push_spec :=
  mk_spec "refs/tags/snapshot" "refs/tags/snapshot" false tree c3.

(** A spec that is up to date. *)
Definition spec_same : push_spec :=
  mk_spec "refs/heads/main" "refs/heads/main" false c2 c2.

(** A push of Scenario A, of the tag over an unknown remote id, and of
    the deletion, in this order. *)
Definition push_three : git_push :=
  mk_push [spec_main; spec_tag; spec_delete] [].

(** A push of an up-to-date spec between two others. *)
Definition push_with_same : git_push :=
  mk_push [spec_main; spec_same; spec_delete] [].

(** Callbacks that return [n]: the negotiation callback, the tip
    callback. *)
Definition negotiation_returns (n : Z) : option git_remote_callbacks :=
  Some {| pack_progress := false;
          push_negotiation := Some (fun _ => n);
          update_tips := None |}.

Definition tips_returns (n : Z) : option git_remote_callbacks :=
  Some {| pack_progress := false;
          push_negotiation := None;
          update_tips := Some (fun _ _ _ => n) |}.

(** Scenario A before work resolution. *)
Definition push_main : git_push :=
  mk_push [mk_spec "refs/heads/main" "refs/heads/main" false 0%N 0%N] [].

(** A source that is not a reference. *)
Definition push_missing : git_push :=
  mk_push [mk_spec "refs/heads/main" "refs/heads/main" false 0%N 0%N;
           mk_spec "refs/heads/none" "refs/heads/none" false 0%N 0%N] [].

(** The remote could not unpack what it was sent. *)
Definition E_unpack_failed : env := repo objects base fetch heads false.

(** What the remote reports: [old] and [main] accepted, and a reference
    nobody pushed. *)
Definition status_old : push_status :=
  {| ref := "refs/heads/old"; msg := None |}.
Definition status_main : push_status :=
  {| ref := "refs/heads/main"; msg := None |}.
Definition status_other : push_status :=
  {| ref := "refs/heads/other"; msg := None |}.

(** The session after the deletion of [old] and the update of [main] were
    sent and accepted. *)
Definition push_done : git_push :=
  mk_push [spec_delete; spec_main] [status_old; status_main].

(** The same with a status for a reference nobody pushed in between. *)
Definition push_done_other : git_push :=
  mk_push [spec_delete; spec_main] [status_old; status_other; status_main].

(** The deletion of [old] as it is added to a session, and the session. *)
Definition spec_delete_new : push_spec :=
  mk_spec "" "refs/heads/old" false 0%N 0%N.

Definition push_delete : git_push :=
  mk_push [mk_spec "refs/heads/main" "refs/heads/main" false 0%N 0%N;
           spec_delete_new] [].

(** A refspec parser that knows the deletion of [old] and the push of
    [main], and a revision parser for the local branch. *)
Definition parse (str : string) : result git_refspec :=
  if String.eqb str ":refs/heads/old" then
    Ok {| src := ""; dst := "refs/heads/old"; force := false |}
  else if String.eqb str "refs/heads/main:refs/heads/main" then
    Ok {| src := "refs/heads/main"; dst := "refs/heads/main";
          force := false |}
  else Err 1.

Definition revparse (r : string) : result git_object :=
  if String.eqb r "refs/heads/main" then Ok (Commit c2) else Err 3.

(** Local references: [main] at [c2], the tag [v1] at [t1], and the
    tracking references of [main] and [old] at [c1]. *)
Definition w0 : world :=
  {| w_refs := {[ "refs/heads/main" := c2;
                  "refs/tags/v1" := t1;
                  "refs/remotes/origin/main" := c1;
                  "refs/remotes/origin/old" := c1 ]};
     w_log := [] |}.

(** Forced, over a remote id that is unknown locally. *)
Definition spec_forced : push_spec :=
  mk_spec "refs/heads/main" "refs/heads/main" true c2 c3.

(** A branch whose object is missing from the store. *)
Definition spec_missing : push_spec :=
  mk_spec "refs/heads/lost" "refs/heads/lost" false 30%N 0%N.

(** Scenario A, then the branch with the missing object. *)
Definition push_then_missing : git_push :=
  mk_push [spec_main; spec_missing] [].

(** Deletions and up-to-date specs only. *)
Definition push_nothing : git_push :=
  mk_push [spec_delete; spec_same] [].

(** The remote rejected [old] and accepted [main]. *)
Definition status_old_rejected : push_status :=
  {| ref := "refs/heads/old"; msg := Some "protected branch" |}.

Definition push_partly_rejected : git_push :=
  mk_push [spec_delete; spec_main] [status_old_rejected; status_main].

(** Two specs for [main], the forced one after the other one, both
    accepted under the one status of their destination. *)
Definition push_duplicate : git_push :=
  mk_push [spec_delete; spec_main; spec_forced] [status_old; status_main].





(** A deletion of [main] behind the update of [main], the remote
    accepting what it was sent for [main]. *)
Definition spec_delete_main : push_spec :=
  mk_spec "" "refs/heads/main" false 0%N c1.

Definition push_shadowed : git_push :=
  mk_push [spec_main; spec_delete_main] [status_main].

(** The deletion of [old] and the update of [main] resolved, the remote
    having accepted both. *)
Definition push_delete_done : git_push :=
  mk_push [mk_spec "refs/heads/main" "refs/heads/main" false c2 c1;
           mk_spec "" "refs/heads/old" false 0%N c1]
          [status_main; status_old].

(** A negotiation callback that vetoes a push with more than one update:
    it returns -1 then, and 1 otherwise. *)
Definition negotiation_single : option git_remote_callbacks :=
  Some {| pack_progress := false;
          push_negotiation :=
            Some (fun us => if (1 <? length us)%nat then -1 else 1);
          update_tips := None |}.

(** The branch with the missing object, then Scenario B. *)
Definition push_missing_first : git_push :=
  mk_push [spec_missing; spec_unrelated] [].

(** The same without a tracking reference for [old]. *)
Definition w_untracked : world :=
  {| w_refs := {[ "refs/heads/main" := c2;
                  "refs/remotes/origin/main" := c1 ]};
     w_log := [] |}.

End Examples.

(** * Properties *)

(** ** Loops *)

Lemma foreach_app {S A : Type} (body : S -> A -> flow * S) (l1 l2 : list A)
    (s s1 : S) :
  foreach body l1 s = (Continue, s1) ->
  foreach body (l1 ++ l2) s = foreach body l2 s1.
Proof.
  revert s. induction l1 as [|x l1 IH]; intros s H; simpl in *.
  - by inversion H.
  - destruct (body s x) as [[] s'] eqn:Hb; [by apply IH | discriminate].
Qed.

Lemma foreach_abort {S A : Type} (body : S -> A -> flow * S) (l1 l2 : list A)
    (x : A) (s s1 s2 : S) :
  foreach body l1 s = (Continue, s1) ->
  body s1 x = (GotoOnError, s2) ->
  foreach body (l1 ++ x :: l2) s = (GotoOnError, s2).
Proof.
  intros H1 H2. rewrite (foreach_app _ _ _ _ _ H1). simpl. by rewrite H2.
Qed.

Lemma foreach_skip {S A : Type} (body : S -> A -> flow * S) (l1 l2 : list A)
    (x : A) (s : S) :
  (forall s', body s' x = (Continue, s')) ->
  foreach body (l1 ++ x :: l2) s = foreach body (l1 ++ l2) s.
Proof.
  intros Hx. revert s. induction l1 as [|y l1 IH]; intros s; simpl.
  - by rewrite Hx.
  - destruct (body s y) as [[] s']; [apply IH | done].
Qed.

(** ** Return codes *)

Lemma ret_neg {A : Type} (r : result A) :
  (ret r <? 0) = true <-> exists e, r = Err e.
Proof.
  destruct r as [a|e]; simpl; split; intros H; try done.
  - by destruct H.
  - by exists e.
Qed.

Lemma ret_enotfound {A : Type} (r : result A) :
  (ret r =? GIT_ENOTFOUND) = true <-> r = Err 3.
Proof.
  rewrite Z.eqb_eq. unfold GIT_ENOTFOUND.
  destruct r as [a|e]; cbn [ret]; split; intros H; try done.
  - by inversion H.
  - by inversion H.
Qed.

Lemma git_oid_iszero_spec (id : git_oid) : git_oid_iszero id = true <-> id = 0%N.
Proof. unfold git_oid_iszero. apply N.eqb_eq. Qed.

Lemma git_oid_equal_spec (a b : git_oid) : git_oid_equal a b = true <-> a = b.
Proof. unfold git_oid_equal. apply N.eqb_eq. Qed.

(** ** Enumeration *)

Section EnumerationFacts.

Variable E : env.

Lemma skip_deleted (st : qstate) (spec : push_spec) :
  git_oid_iszero (loid spec) = true ->
  queue_objects_body E st spec = (Continue, st).
Proof. intros H. unfold queue_objects_body. by rewrite H. Qed.

Lemma skip_up_to_date (st : qstate) (spec : push_spec) :
  loid spec = roid spec ->
  queue_objects_body E st spec = (Continue, st).
Proof.
  intros H. unfold queue_objects_body.
  destruct (git_oid_iszero (loid spec)); [done|].
  apply git_oid_equal_spec in H. by rewrite H.
Qed.

Lemma body_enumerated (st : qstate) (spec : push_spec) :
  git_oid_iszero (loid spec) = false ->
  git_oid_equal (loid spec) (roid spec) = false ->
  queue_objects_body E st spec =
    match queue_objects_seed E st spec with
    | (GotoOnError, st') => (GotoOnError, st')
    | (Continue, st') => queue_objects_check E st' spec
    end.
Proof. intros H1 H2. unfold queue_objects_body. by rewrite H1, H2. Qed.

(** The check touches nothing but [error]. *)
Lemma check_keeps (st st' : qstate) (spec : push_spec) (fl : flow) :
  queue_objects_check E st spec = (fl, st') ->
  q_pb st' = q_pb st /\ q_rw st' = q_rw st.
Proof.
  unfold queue_objects_check. intros H.
  repeat (match type of H with
          | (if ?c then _ else _) = _ => destruct c
          end);
    inversion H; subst; done.
Qed.

(** When the check leaves the loop, [error] is negative. *)
Lemma check_abort_negative (st st' : qstate) (spec : push_spec) :
  queue_objects_check E st spec = (GotoOnError, st') -> q_error st' < 0.
Proof.
  unfold queue_objects_check. intros H.
  destruct (negb (force (refspec spec))); [|done].
  destruct (git_oid_iszero (roid spec)); [done|].
  destruct (negb (git_odb_exists E (roid spec))).
  { inversion H; subst; simpl. unfold GIT_ENONFASTFORWARD. lia. }
  destruct (_ || _).
  { inversion H; subst; simpl. unfold GIT_ENONFASTFORWARD. lia. }
  destruct (ret _ <? 0) eqn:Hneg; inversion H; subst; simpl.
  by apply Z.ltb_lt.
Qed.


End EnumerationFacts.

(** A failed seeding call leaves [error] as it was.  After a spec that
    passed its check [error] is 0: the walker refuses the tree of the next
    spec, the loop is left, and [queue_objects] returns 0. *)
Example seeding_failure_returns_stale_error :
  queue_objects Examples.E0
    (Examples.mk_push [Examples.spec_main; Examples.spec_tree] [])
    Examples.pb0
  = (0, Examples.pb0).
Proof. reflexivity. Qed.

(** C1, as the spec states it, fails twice.  A lightweight tag on a tree
    pushed without force over a remote id that is unknown locally: the
    remote id is non-zero and no ancestor, but the walker refuses the tree
    before the check is reached and the loop is left with [error = -1].
    And Scenario B behind a spec whose object cannot be read: the
    enumeration ends at the earlier spec and returns -1. *)
Lemma fast_forward_as_stated_fails :
  ~ fast_forward_as_stated Examples.E0 Examples.st0 Examples.spec_tree /\
  ~ fast_forward_as_stated_of_push Examples.E0 Examples.push_missing_first
      Examples.pb0 Examples.spec_unrelated.
Proof.
  split.
  - unfold fast_forward_as_stated. intros H.
    destruct H as [_ H]; [reflexivity | discriminate | discriminate |].
    destruct H as [_ Herr].
    + split; [discriminate | by left].
    + vm_compute in Herr. discriminate.
  - unfold fast_forward_as_stated_of_push. intros H.
    assert (Hret : (queue_objects Examples.E0 Examples.push_missing_first
                      Examples.pb0).1 = -1) by reflexivity.
    rewrite H in Hret; try discriminate.
    + apply list_elem_of_further, list_elem_of_here.
    + reflexivity.
    + split; [discriminate | by left].
Qed.

(** C1, amended.  A spec that is not forced, with a non-zero local id [L]
    different from the remote id [R], that the enumeration reaches (every
    spec before it went through) and whose objects were seeded without
    error: the enumeration fails at this spec with [GIT_ENONFASTFORWARD]
    if and only if [R] is non-zero and is not an ancestor of [L] ([R]
    absent locally, no merge base, or a merge base other than [R]), and
    [queue_objects] then returns [GIT_ENONFASTFORWARD]; when [R] is zero
    the check is skipped and the loop goes on with the specs that follow.
    [git_merge_base] is taken not to return [GIT_ENONFASTFORWARD] of its
    own. *)
Theorem fast_forward_property (E : env) (push : git_push)
    (pb0 : git_packbuilder) (before after : list push_spec)
    (spec : push_spec) (st st1 : qstate) :
  revwalk_new_fault E = None ->
  specs push = before ++ spec :: after ->
  foreach (queue_objects_body E) before (queue_objects_init pb0)
    = (Continue, st) ->
  force (refspec spec) = false ->
  git_oid_iszero (loid spec) = false ->
  loid spec <> roid spec ->
  queue_objects_seed E st spec = (Continue, st1) ->
  git_merge_base E (loid spec) (roid spec) <> Err 11 ->
  (fails_with (queue_objects_body E st spec) GIT_ENONFASTFORWARD <->
     roid spec <> 0%N /\ not_ancestor E (loid spec) (roid spec)) /\
  (roid spec <> 0%N /\ not_ancestor E (loid spec) (roid spec) ->
   queue_objects E push pb0 = (GIT_ENONFASTFORWARD, q_pb st1)) /\
  (roid spec = 0%N ->
   queue_objects_body E st spec = (Continue, st1) /\
   foreach (queue_objects_body E) (specs push) (queue_objects_init pb0)
     = foreach (queue_objects_body E) after st1).
Proof.
  intros Hnew Hspecs Hbefore Hforce Hnz Hne Hseed Hmb.
  assert (Heq : git_oid_equal (loid spec) (roid spec) = false).
  { apply not_true_is_false. by rewrite git_oid_equal_spec. }
  assert (Hbody := body_enumerated E st spec Hnz Heq).
  rewrite Hseed in Hbody.
  assert (Hiff :
    fails_with (queue_objects_body E st spec) GIT_ENONFASTFORWARD <->
    roid spec <> 0%N /\ not_ancestor E (loid spec) (roid spec)).
  { rewrite Hbody. unfold queue_objects_check. rewrite Hforce. cbn [negb].
    destruct (git_oid_iszero (roid spec)) eqn:Hrz.
    { apply git_oid_iszero_spec in Hrz.
      split; [intros [Hfl _]; done | intros [Hr _]; done]. }
    assert (Hr : roid spec <> 0%N).
    { intros Hr. apply git_oid_iszero_spec in Hr. congruence. }
    unfold fails_with, not_ancestor.
    destruct (git_odb_exists E (roid spec)) eqn:Hex; cbn [negb].
    2:{ split; [intros _; split; [done | by left] | intros _; done]. }
    destruct (git_merge_base E (loid spec) (roid spec)) as [base|e] eqn:Hbase;
      cbn [ret].
    - replace (0 =? GIT_ENOTFOUND) with false by done. cbn [orb].
      destruct (git_oid_equal base (roid spec)) eqn:Hb; cbn [negb].
      + apply git_oid_equal_spec in Hb. cbn. split.
        * intros [Hfl _]; done.
        * intros [_ [H|[H|(b & H & Hbr)]]]; [done|done|]. congruence.
      + split; [|done]. intros _. split; [done|].
        right; right. exists base. split; [done|].
        intros Hbr. apply git_oid_equal_spec in Hbr. congruence.
    - destruct (Z.neg e =? GIT_ENOTFOUND) eqn:He; cbn [orb].
      + split; [|done]. intros _. split; [done|]. right; left.
        apply Z.eqb_eq in He. unfold GIT_ENOTFOUND in He. by inversion He.
      + replace (Z.neg e <? 0) with true by done. cbn. split.
        * intros [_ H]. unfold GIT_ENONFASTFORWARD in H. inversion H; subst.
          by destruct Hmb.
        * intros [_ [H|[H|(b & H & _)]]]; [done| |done].
          inversion H; subst. done. }
  split; [done|]. split.
  - intros Hcond. apply Hiff in Hcond. rewrite Hbody in Hcond.
    destruct Hcond as [Hfl Herr].
    destruct (queue_objects_check E st1 spec) as [fl st2] eqn:Hc.
    cbn in Hfl, Herr. subst fl.
    destruct (check_keeps E _ _ _ _ Hc) as [Hpb _].
    unfold queue_objects. rewrite Hnew, Hspecs.
    rewrite (foreach_abort _ before after spec _ st st2 Hbefore Hbody).
    by rewrite Herr, Hpb.
  - intros Hrz.
    assert (Hcont : queue_objects_body E st spec = (Continue, st1)).
    { rewrite Hbody. unfold queue_objects_check. rewrite Hforce. cbn [negb].
      apply git_oid_iszero_spec in Hrz. by rewrite Hrz. }
    split; [done|]. rewrite Hspecs.
    rewrite (foreach_app _ _ _ _ _ Hbefore). cbn. by rewrite Hcont.
Qed.

Lemma fast_forward_property_witness :
  let st := (foreach (queue_objects_body Examples.E0) [Examples.spec_same]
               (queue_objects_init Examples.pb0)).2 in
  let st1 := (queue_objects_seed Examples.E0 st Examples.spec_unrelated).2 in
  let push :=
    Examples.mk_push
      [Examples.spec_same; Examples.spec_unrelated; Examples.spec_delete] [] in
  (fails_with (queue_objects_body Examples.E0 st Examples.spec_unrelated)
     GIT_ENONFASTFORWARD <->
     roid Examples.spec_unrelated <> 0%N /\
     not_ancestor Examples.E0 (loid Examples.spec_unrelated)
       (roid Examples.spec_unrelated)) /\
  (roid Examples.spec_unrelated <> 0%N /\
   not_ancestor Examples.E0 (loid Examples.spec_unrelated)
     (roid Examples.spec_unrelated) ->
   queue_objects Examples.E0 push Examples.pb0
     = (GIT_ENONFASTFORWARD, q_pb st1)) /\
  (roid Examples.spec_unrelated = 0%N ->
   queue_objects_body Examples.E0 st Examples.spec_unrelated
     = (Continue, st1) /\
   foreach (queue_objects_body Examples.E0) (specs push)
     (queue_objects_init Examples.pb0)
     = foreach (queue_objects_body Examples.E0) [Examples.spec_delete] st1).
Proof.
  intros st st1 push.
  apply (fast_forward_property Examples.E0 push Examples.pb0
           [Examples.spec_same] [Examples.spec_delete]
           Examples.spec_unrelated st st1).
  - reflexivity.
  - reflexivity.
  - reflexivity.
  - reflexivity.
  - reflexivity.
  - discriminate.
  - reflexivity.
  - discriminate.
Defined.




(** C2, as the spec states it, fails on Scenario D pushed without force
    over a remote id that is unknown locally: the spec is rejected as
    non-fast-forward, and both tags are in the pack builder and the commit
    is on the walker by then. *)
Lemma rejected_before_seeding_fails :
  ~ rejected_before_seeding Examples.E0 Examples.st0 Examples.spec_tag.
Proof.
  unfold rejected_before_seeding. intros H.
  destruct H as [H _]; [by split|].
  vm_compute in H. discriminate.
Qed.

(** C2, amended.  The fast-forward check of a spec runs after the objects
    of that spec were seeded: when the check rejects the spec, the pack
    builder and the walker are those the seeding left.  The enumeration
    stops there: [error] is negative, the specs that follow are not looked
    at, the final walk is not run, [queue_objects] returns [error], and
    [do_push] frees the pack builder without calling the transport. *)
Theorem rejected_after_seeding (E : env)
    (tpush : git_push -> option git_remote_callbacks -> Z * git_push)
    (callbacks : option git_remote_callbacks) (w : world)
    (push : git_push) (pb0 : git_packbuilder)
    (before after : list push_spec) (spec : push_spec)
    (st st1 st2 : qstate) :
  revwalk_new_fault E = None ->
  specs push = before ++ spec :: after ->
  foreach (queue_objects_body E) before (queue_objects_init pb0)
    = (Continue, st) ->
  git_oid_iszero (loid spec) = false ->
  git_oid_equal (loid spec) (roid spec) = false ->
  queue_objects_seed E st spec = (Continue, st1) ->
  queue_objects_check E st1 spec = (GotoOnError, st2) ->
  q_pb st2 = q_pb st1 /\ q_rw st2 = q_rw st1 /\ q_error st2 < 0 /\
  queue_objects E push pb0 = (q_error st2, q_pb st1) /\
  do_push_send E tpush callbacks w push pb0
    = (q_error st2, set_pb push None, w).
Proof.
  intros Hnew Hspecs Hbefore Hnz Hne Hseed Hcheck.
  destruct (check_keeps E _ _ _ _ Hcheck) as [Hpb Hrw].
  pose proof (check_abort_negative E _ _ _ Hcheck) as Hneg.
  assert (Hq : queue_objects E push pb0 = (q_error st2, q_pb st1)).
  { unfold queue_objects. rewrite Hnew, Hspecs.
    rewrite (foreach_abort _ before after spec _ st st2 Hbefore).
    - by rewrite Hpb.
    - by rewrite (body_enumerated E st spec Hnz Hne), Hseed. }
  repeat split; try done.
  unfold do_push_send. rewrite Hq.
  apply Z.ltb_lt in Hneg. by rewrite Hneg.
Qed.

Lemma rejected_after_seeding_witness :
  let st := snd (foreach (queue_objects_body Examples.E0)
                   [Examples.spec_main]
                   (queue_objects_init Examples.pb0)) in
  let st1 := snd (queue_objects_seed Examples.E0 st Examples.spec_tag) in
  let st2 := snd (queue_objects_check Examples.E0 st1 Examples.spec_tag) in
  q_pb st2 = q_pb st1 /\ q_rw st2 = q_rw st1 /\ q_error st2 < 0 /\
  queue_objects Examples.E0 Examples.push_three Examples.pb0
    = (q_error st2, q_pb st1) /\
  do_push_send Examples.E0 (Examples.accept_all true) None Examples.w0
    Examples.push_three Examples.pb0
    = (q_error st2, set_pb Examples.push_three None, Examples.w0).
Proof.
  intros st st1 st2.
  apply (rejected_after_seeding Examples.E0 (Examples.accept_all true) None
           Examples.w0 Examples.push_three Examples.pb0
           [Examples.spec_main] [Examples.spec_delete] Examples.spec_tag
           st st1 st2).
  - reflexivity.
  - reflexivity.
  - reflexivity.
  - reflexivity.
  - reflexivity.
  - reflexivity.
  - reflexivity.
Defined.

(** C7.  A spec whose local id equals its remote id is skipped at the top
    of the loop body, before any seeding or fast-forward work: the body
    leaves the pack builder, the walker and [error] as they were and goes
    on with the next spec.  The enumeration of a push with such a spec
    returns what it returns without it, pack builder and return value
    alike. *)
Theorem idempotence_property (E : env) (push : git_push)
    (pb0 : git_packbuilder) (before after : list push_spec)
    (spec : push_spec) :
  loid spec = roid spec ->
  specs push = before ++ spec :: after ->
  (forall st, queue_objects_body E st spec = (Continue, st)) /\
  queue_objects E push pb0
    = queue_objects E (set_specs push (before ++ after)) pb0.
Proof.
  intros Heq Hspecs.
  assert (Hskip : forall st, queue_objects_body E st spec = (Continue, st)).
  { intros st. by apply skip_up_to_date. }
  split; [done|].
  unfold queue_objects. rewrite Hspecs. cbn [specs set_specs remote].
  by rewrite (foreach_skip _ before after spec _ Hskip).
Qed.

Lemma idempotence_property_witness :
  (forall st,
     queue_objects_body Examples.E0 st Examples.spec_same = (Continue, st)) /\
  queue_objects Examples.E0 Examples.push_with_same Examples.pb0
    = queue_objects Examples.E0
        (set_specs Examples.push_with_same
           ([Examples.spec_main] ++ [Examples.spec_delete]))
        Examples.pb0.
Proof.
  apply (idempotence_property Examples.E0 Examples.push_with_same
           Examples.pb0 [Examples.spec_main] [Examples.spec_delete]
           Examples.spec_same).
  - reflexivity.
  - reflexivity.
Defined.

(** ** Work resolution *)

Section WorkFacts.

Variable E : env.
Variable w : world.
Variable heads : list git_remote_head.

(** The source reference of a spec is resolved, or the spec is
    [unresolvable]. *)
Lemma source_resolved_or_not (spec : push_spec) :
  (exists l,
     (if negb (String.eqb (src (refspec spec)) "")
      then git_reference_name_to_id E w (src (refspec spec))
      else Ok (loid spec)) = Ok l) \/
  ((exists e,
     (if negb (String.eqb (src (refspec spec)) "")
      then git_reference_name_to_id E w (src (refspec spec))
      else Ok (loid spec)) = Err e) /\
   unresolvable E w spec).
Proof.
  unfold unresolvable.
  destruct (String.eqb_spec (src (refspec spec)) "") as [Hs|Hs]; cbn [negb].
  - left. by eexists.
  - destruct (git_reference_name_to_id E w (src (refspec spec))) as [l|e].
    + left. by eexists.
    + right. split; [by eexists|]. split; [done | by eexists].
Qed.

Lemma calculate_work_loop_code (todo : list push_spec)
    (ups : list git_push_update) :
  (calculate_work_loop E w heads todo ups).1.1 = 0 \/
  (calculate_work_loop E w heads todo ups).1.1 = -1.
Proof.
  revert ups. induction todo as [|spec rest IH]; intros ups; cbn.
  - by left.
  - destruct (if negb _ then _ else _) as [l|e]; [|by right].
    match goal with
    | |- context [calculate_work_loop E w heads rest ?u] =>
        specialize (IH u);
        destruct (calculate_work_loop E w heads rest u) as [[e' r'] u']
    end.
    exact IH.
Qed.

Lemma calculate_work_loop_fails (todo : list push_spec)
    (ups : list git_push_update) :
  (calculate_work_loop E w heads todo ups).1.1 = -1 <->
  Exists (unresolvable E w) todo.
Proof.
  revert ups. induction todo as [|spec rest IH]; intros ups; cbn.
  - split; [done | by rewrite Exists_nil].
  - rewrite Exists_cons.
    destruct (source_resolved_or_not spec) as [[l Hl]|[[e He] Hun]].
    + rewrite Hl.
      match goal with
      | |- context [calculate_work_loop E w heads rest ?u] =>
          specialize (IH u);
          destruct (calculate_work_loop E w heads rest u) as [[e' r'] u']
      end.
      cbn in *. rewrite IH. split; [by right|].
      intros [[Hsrc [e He]]|H]; [|done].
      destruct (String.eqb_spec (src (refspec spec)) "") as [Hs|Hs];
        cbn [negb] in Hl; congruence.
    + rewrite He. cbn. split; [by left | done].
Qed.

Lemma calculate_work_loop_ok (todo specs' : list push_spec)
    (ups ups' : list git_push_update) :
  calculate_work_loop E w heads todo ups = (0, specs', ups') ->
  Forall2 (resolved E w heads) todo specs' /\
  ups' = ups ++ map add_update specs'.
Proof.
  revert ups specs' ups'.
  induction todo as [|spec rest IH]; intros ups specs' ups' H; cbn in H.
  - inversion H; subst. split; [constructor | by rewrite app_nil_r].
  - destruct (if negb _ then _ else _) as [l|e] eqn:Hl; [|done].
    match type of H with
    | context [calculate_work_loop E w heads rest ?u] =>
        specialize (IH u);
        destruct (calculate_work_loop E w heads rest u) as [[e' r'] u']
    end.
    inversion H; subst. destruct (IH _ _ eq_refl) as [IH1 IH2].
    split.
    + constructor; [|done]. unfold resolved. cbn.
      split; [done|]. split; [|done].
      destruct (negb _); [done | by inversion Hl].
    + subst. cbn. by rewrite <- app_assoc.
Qed.

(** Once a source cannot be resolved, the specs and the updates are
    those at that point. *)
Lemma calculate_work_loop_length (todo : list push_spec)
    (ups : list git_push_update) :
  length (calculate_work_loop E w heads todo ups).1.2 = length todo.
Proof.
  revert ups. induction todo as [|spec rest IH]; intros ups; cbn; [done|].
  destruct (if negb _ then _ else _) as [l|e]; [|done].
  match goal with
  | |- context [calculate_work_loop E w heads rest ?u] =>
      specialize (IH u);
      destruct (calculate_work_loop E w heads rest u) as [[e' r'] u']
  end.
  cbn in *. by rewrite IH.
Qed.

End WorkFacts.

Lemma calculate_work_ok (E : env) (w : world) (push push1 : git_push) :
  calculate_work E w push = (0, push1) ->
  Forall2 (resolved E w (refs (remote push))) (specs push) (specs push1) /\
  updates push1 = updates push ++ map add_update (specs push1).
Proof.
  unfold calculate_work. intros H.
  destruct (calculate_work_loop E w (refs (remote push)) (specs push)
              (updates push)) as [[e specs'] ups'] eqn:Hloop.
  inversion H; subst; clear H. cbn.
  by apply (calculate_work_loop_ok E w (refs (remote push)) (specs push)).
Qed.

Lemma matching_head_first (heads : list git_remote_head) (spec : push_spec)
    (head : git_remote_head) :
  first_head_named heads (dst (refspec spec)) head ->
  matching_head heads spec = Some head.
Proof.
  intros (hs1 & hs2 & -> & Hname & Hnone). unfold matching_head.
  induction Hnone as [|h hs1 Hh _ IH]; cbn.
  - rewrite Hname. by rewrite String.eqb_refl.
  - destruct (String.eqb_spec (dst (refspec spec)) (name h)) as [Heq|_];
      [by destruct Hh | done].
Qed.

Lemma matching_head_none (heads : list git_remote_head) (spec : push_spec) :
  Forall (fun h => name h <> dst (refspec spec)) heads ->
  matching_head heads spec = None.
Proof.
  unfold matching_head. induction 1 as [|h hs Hh _ IH]; cbn; [done|].
  destruct (String.eqb_spec (dst (refspec spec)) (name h)) as [Heq|_];
    [by destruct Hh | done].
Qed.

Lemma resolved_as_the_spec_asks (E : env) (w : world)
    (heads : list git_remote_head) (spec spec' : push_spec) :
  resolved E w heads spec spec' -> resolved_spec E w heads spec spec'.
Proof.
  intros (Hrs & Hl & Hr). unfold resolved_spec.
  split; [done|]. split; [|split; [|split]].
  - intros Hsrc. apply String.eqb_neq in Hsrc. by rewrite Hsrc in Hl.
  - intros Hsrc. apply String.eqb_eq in Hsrc. by rewrite Hsrc in Hl.
  - intros head Hfirst. by rewrite Hr, (matching_head_first _ _ _ Hfirst).
  - intros Hnone. by rewrite Hr, (matching_head_none _ _ Hnone).
Qed.

Lemma add_update_is_update_of (ss : list push_spec) :
  Forall2 update_of ss (map add_update ss).
Proof. induction ss; constructor; done. Qed.

(** C9.  Work resolution returns 0 or -1.  When it returns 0, every spec
    has kept its refspec, has as local id what its source reference
    resolves to (the id it had for an empty source) and as remote id the
    id of the first advertised head with its destination's name (the id it
    had when no head has that name); and the updates of the session were
    extended by one update per spec, in the order of the specs, each with
    the two names of the spec, its remote id as old id and its local id as
    new id.  It returns -1 exactly when the non-empty source of some spec
    cannot be resolved ("No such reference"); [do_push] then returns -1 as
    well, with the world untouched: no callback, no enumeration, no
    transport. *)
Theorem work_resolution_property (E : env) (w : world) (push push1 : git_push)
    (error : Z) :
  calculate_work E w push = (error, push1) ->
  (error = 0 \/ error = -1) /\
  (error = -1 <-> Exists (unresolvable E w) (specs push)) /\
  (error = 0 ->
   Forall2 (resolved_spec E w (refs (remote push)))
     (specs push) (specs push1) /\
   exists us,
     updates push1 = updates push ++ us /\
     Forall2 update_of (specs push1) us) /\
  (error = -1 ->
   forall tpush callbacks pb0,
     do_push_work E tpush callbacks w push pb0 = (-1, set_pb push1 None, w)).
Proof.
  intros H.
  pose proof (calculate_work_loop_code E w (refs (remote push))
                (specs push) (updates push)) as Hcode.
  pose proof (calculate_work_loop_fails E w (refs (remote push))
                (specs push) (updates push)) as Hfail.
  pose proof (calculate_work_ok E w push push1) as Hok.
  assert (Hw := H). unfold calculate_work in H.
  destruct (calculate_work_loop E w (refs (remote push)) (specs push)
              (updates push)) as [[e specs'] ups'] eqn:Hloop.
  inversion H; subst; clear H. cbn in *.
  split; [done|]. split; [done|]. split.
  - intros ->. destruct (Hok Hw) as [Hall Hups]. cbn in Hall, Hups. split.
    + eapply Forall2_impl; [exact Hall|].
      intros spec spec'. apply resolved_as_the_spec_asks.
    + exists (map add_update specs'). split; [done|].
      apply add_update_is_update_of.
  - intros -> tpush callbacks pb0. unfold do_push_work. by rewrite Hw.
Qed.

Lemma work_resolution_property_witness :
  let push1 :=
    (calculate_work Examples.E0 Examples.w0 Examples.push_delete).2 in
  (0 = 0 \/ 0 = -1) /\
  (0 = -1 <->
   Exists (unresolvable Examples.E0 Examples.w0)
     (specs Examples.push_delete)) /\
  (0 = 0 ->
   Forall2 (resolved_spec Examples.E0 Examples.w0
              (refs (remote Examples.push_delete)))
     (specs Examples.push_delete) (specs push1) /\
   exists us,
     updates push1 = updates Examples.push_delete ++ us /\
     Forall2 update_of (specs push1) us) /\
  (0 = -1 ->
   forall tpush callbacks pb0,
     do_push_work Examples.E0 tpush callbacks Examples.w0
       Examples.push_delete pb0
       = (-1, set_pb push1 None, Examples.w0)).
Proof.
  intros push1.
  apply (work_resolution_property Examples.E0 Examples.w0
           Examples.push_delete push1 0).
  reflexivity.
Defined.

(** C4, as the spec states it, fails for a negotiation callback that
    returns 1: work resolution, enumeration and the transport all run. *)
Lemma nonzero_veto_fails :
  ~ nonzero_veto Examples.E0 (Examples.negotiation_returns 1)
      Examples.w0 Examples.push_main.
Proof.
  unfold nonzero_veto. intros H.
  apply (H (fun _ => 1)); [reflexivity | discriminate |].
  exists [Examples.c2],
    [Examples.mk_spec "refs/heads/main" "refs/heads/main" false
       Examples.c2 Examples.c1].
  apply list_elem_of_further, list_elem_of_here.
Qed.

(** C4, amended.  A registered negotiation callback is called once work
    resolution is through, with all the updates of the session, whatever
    it returns.  When it returns a negative value, [do_push] returns that
    value at once: the call of the callback is all that happened, nothing
    is enumerated and the transport is not called.  When it returns 0 or a
    positive value the push is not stopped: [do_push] goes on with the
    enumeration and the transport as it does after the call, and the
    transport is called whenever the enumeration does not fail. *)
Theorem negotiation_veto (E : env)
    (tpush : git_push -> option git_remote_callbacks -> Z * git_push)
    (callbacks : option git_remote_callbacks)
    (cb : list git_push_update -> Z)
    (w : world) (push push1 : git_push) (error : Z) :
  transport_push E = Some tpush ->
  packbuilder_new_fault E = None ->
  packbuilder_set_callbacks_fault E = None ->
  calculate_work E w push = (error, push1) ->
  0 <= error ->
  callbacks ≫= push_negotiation = Some cb ->
  let pb0 := {| pb_objects := []; pb_threads := pb_parallelism push |} in
  let called := log_event w (EvNegotiation (updates push1)) in
  (cb (updates push1) < 0 ->
   do_push E callbacks w push
     = (cb (updates push1), set_pb push1 None, called) /\
   (~ transmitted w -> ~ transmitted (do_push E callbacks w push).2)) /\
  (0 <= cb (updates push1) ->
   do_push E callbacks w push
     = do_push_send E tpush callbacks called push1 pb0 /\
   (0 <= (queue_objects E push1 pb0).1 ->
    (do_push E callbacks w push).2
      = log_event called
          (EvTransportPush (pb_objects (queue_objects E push1 pb0).2)
             (specs push1)) /\
    transmitted (do_push E callbacks w push).2)).
Proof.
  intros Htp Hnew Hset Hwork Herr Hcb pb0 called.
  assert (Hdo : do_push E callbacks w push
    = if cb (updates push1) <? 0
      then (cb (updates push1), set_pb push1 None, called)
      else do_push_send E tpush callbacks called push1 pb0).
  { unfold do_push. rewrite Htp, Hnew, Hset.
    replace (match callbacks with
             | Some cbs => if pack_progress cbs then None else None
             | None => None
             end) with (@None positive)
      by (destruct callbacks as [cbs|]; [by destruct (pack_progress cbs)|done]).
    unfold do_push_work. rewrite Hwork.
    replace (error <? 0) with false by (symmetry; apply Z.ltb_ge; lia).
    by rewrite Hcb. }
  split.
  - intros Hneg. apply Z.ltb_lt in Hneg. rewrite Hdo, Hneg.
    split; [done|]. cbn.
    intros Hw (objects & ss & Hin). apply Hw. exists objects, ss.
    apply elem_of_app in Hin as [Hin|Hin]; [done|].
    apply list_elem_of_singleton in Hin. discriminate.
  - intros Hpos. apply Z.ltb_ge in Hpos. rewrite Hdo, Hpos.
    split; [done|]. intros Hq. unfold do_push_send.
    destruct (queue_objects E push1 pb0) as [e pb1]. cbn in Hq.
    replace (e <? 0) with false by (symmetry; apply Z.ltb_ge; lia).
    destruct (tpush _ _) as [e' push']. cbn. split; [done|].
    exists (pb_objects pb1), (specs push1).
    apply elem_of_app. right. by apply list_elem_of_singleton.
Qed.

Lemma negotiation_veto_witness :
  (let push1 := (calculate_work Examples.E0 Examples.w0 Examples.push_main).2 in
   let pb0 := {| pb_objects := []; pb_threads := pb_parallelism Examples.push_main |} in
   let called := log_event Examples.w0 (EvNegotiation (updates push1)) in
   let cb := fun us : list git_push_update =>
               if (1 <? length us)%nat then -1 else 1 in
   (cb (updates push1) < 0 ->
    do_push Examples.E0 Examples.negotiation_single Examples.w0 Examples.push_main
      = (cb (updates push1), set_pb push1 None, called) /\
    (~ transmitted Examples.w0 ->
     ~ transmitted
         (do_push Examples.E0 Examples.negotiation_single Examples.w0
            Examples.push_main).2)) /\
   (0 <= cb (updates push1) ->
    do_push Examples.E0 Examples.negotiation_single Examples.w0 Examples.push_main
      = do_push_send Examples.E0 (Examples.accept_all true)
          Examples.negotiation_single called push1 pb0 /\
    (0 <= (queue_objects Examples.E0 push1 pb0).1 ->
     (do_push Examples.E0 Examples.negotiation_single Examples.w0 Examples.push_main).2
       = log_event called
           (EvTransportPush
              (pb_objects (queue_objects Examples.E0 push1 pb0).2)
              (specs push1)) /\
     transmitted
       (do_push Examples.E0 Examples.negotiation_single Examples.w0
          Examples.push_main).2))) /\
  (let push1 := (calculate_work Examples.E0 Examples.w0 Examples.push_delete).2 in
   let pb0 := {| pb_objects := []; pb_threads := pb_parallelism Examples.push_delete |} in
   let called := log_event Examples.w0 (EvNegotiation (updates push1)) in
   let cb := fun us : list git_push_update =>
               if (1 <? length us)%nat then -1 else 1 in
   (cb (updates push1) < 0 ->
    do_push Examples.E0 Examples.negotiation_single Examples.w0 Examples.push_delete
      = (cb (updates push1), set_pb push1 None, called) /\
    (~ transmitted Examples.w0 ->
     ~ transmitted
         (do_push Examples.E0 Examples.negotiation_single Examples.w0
            Examples.push_delete).2)) /\
   (0 <= cb (updates push1) ->
    do_push Examples.E0 Examples.negotiation_single Examples.w0 Examples.push_delete
      = do_push_send Examples.E0 (Examples.accept_all true)
          Examples.negotiation_single called push1 pb0 /\
    (0 <= (queue_objects Examples.E0 push1 pb0).1 ->
     (do_push Examples.E0 Examples.negotiation_single Examples.w0 Examples.push_delete).2
       = log_event called
           (EvTransportPush
              (pb_objects (queue_objects Examples.E0 push1 pb0).2)
              (specs push1)) /\
     transmitted
       (do_push Examples.E0 Examples.negotiation_single Examples.w0
          Examples.push_delete).2))).
Proof.
  split.
  - apply (negotiation_veto Examples.E0 (Examples.accept_all true)
             Examples.negotiation_single
             (fun us => if (1 <? length us)%nat then -1 else 1)
             Examples.w0 Examples.push_main
             (calculate_work Examples.E0 Examples.w0 Examples.push_main).2
             0).
    + reflexivity.
    + reflexivity.
    + reflexivity.
    + reflexivity.
    + lia.
    + reflexivity.
  - apply (negotiation_veto Examples.E0 (Examples.accept_all true)
             Examples.negotiation_single
             (fun us => if (1 <? length us)%nat then -1 else 1)
             Examples.w0 Examples.push_delete
             (calculate_work Examples.E0 Examples.w0 Examples.push_delete).2
             0).
    + reflexivity.
    + reflexivity.
    + reflexivity.
    + reflexivity.
    + lia.
    + reflexivity.
Defined.

(** C6.  The connection is up or can be made, the heads are listed, and
    [do_push] comes back without error, the transport round trip included:
    when the session's [unpack_ok] is false by then, [git_push_finish]
    returns -1, whatever the statuses of the refs say, all accepted
    included. *)
Theorem unpack_failed_property (E : env)
    (callbacks : option git_remote_callbacks) (w w' : world)
    (push push' : git_push) (heads : list git_remote_head) (error : Z) :
  (if connected (remote push) then Ok tt else git_remote_connect E) = Ok tt ->
  git_remote_ls E = Ok heads ->
  do_push E callbacks w
    (set_remote push {| refs := heads; connected := true |})
    = (error, push', w') ->
  0 <= error ->
  unpack_ok push' = false ->
  git_push_finish E callbacks w push = (-1, push', w').
Proof.
  intros Hconn Hls Hdo Herr Hunpack.
  unfold git_push_finish. rewrite Hconn.
  unfold filter_refs. rewrite Hls. cbn [connected].
  replace (0 <? 0) with false by done. rewrite Hdo.
  replace (error <? 0) with false by (symmetry; apply Z.ltb_ge; lia).
  by rewrite Hunpack.
Qed.

Lemma unpack_failed_property_witness :
  Forall (fun s => msg s = None)
    (status (git_push_finish Examples.E_unpack_failed None Examples.w0
               Examples.push_main).1.2) /\
  git_push_finish Examples.E_unpack_failed None Examples.w0 Examples.push_main
    = (-1,
       (do_push Examples.E_unpack_failed None Examples.w0
          (set_remote Examples.push_main
             {| refs := Examples.heads; connected := true |})).1.2,
       (do_push Examples.E_unpack_failed None Examples.w0
          (set_remote Examples.push_main
             {| refs := Examples.heads; connected := true |})).2).
Proof.
  split.
  - repeat constructor.
  - apply (unpack_failed_property Examples.E_unpack_failed None Examples.w0 _
             Examples.push_main _ Examples.heads 0).
    + reflexivity.
    + reflexivity.
    + reflexivity.
    + lia.
    + reflexivity.
Defined.

(** ** Tip reconciliation *)

Section TipsFacts.

Variable E : env.
Variable push : git_push.
Variable callbacks : option git_remote_callbacks.

(** The body of the loop for an accepted status whose tracking reference
    and spec are found: what is left is lines 193-221. *)
Lemma update_tips_body_found (st : tstate) (status : push_status)
    (fetch_spec : git_refspec) (refname : string) (spec : push_spec) :
  msg status = None ->
  git_remote__matching_refspec E (ref status) = Some fetch_spec ->
  git_refspec_transform E fetch_spec (ref status) = Ok refname ->
  find (fun s => String.eqb (dst (refspec s)) (ref status)) (specs push)
    = Some spec ->
  update_tips_body E push callbacks st status =
    (let '(error, w) := update_remote_ref E (t_world st) spec refname in
     if error <? 0 then
       if negb (error =? GIT_ENOTFOUND) then
         (GotoOnError, {| t_world := w; t_error := error |})
       else (Continue, {| t_world := w; t_error := error |})
     else
       match callbacks ≫= update_tips with
       | Some cb =>
           let error := cb refname (roid spec) (loid spec) in
           let w' :=
             log_event w (EvUpdateTips refname (roid spec) (loid spec)) in
           if error <? 0 then
             (GotoOnError, {| t_world := w'; t_error := error |})
           else (Continue, {| t_world := w'; t_error := error |})
       | None => (Continue, {| t_world := w; t_error := error |})
       end).
Proof.
  intros Hmsg Hfetch Htrans Hfind.
  unfold update_tips_body. by rewrite Hmsg, Hfetch, Htrans, Hfind.
Qed.

(** Deleting the tracking reference of a deletion. *)
Lemma update_remote_ref_delete (w : world) (spec : push_spec)
    (refname : string) :
  git_oid_iszero (loid spec) = true ->
  refdb_fault E RefLookup refname = None ->
  refdb_fault E RefDelete refname = None ->
  update_remote_ref E w spec refname =
    match w_refs w !! refname with
    | Some _ => (0, set_refs w (delete refname (w_refs w)))
    | None => (GIT_ENOTFOUND, w)
    end.
Proof.
  intros Hz Hlook Hdel. unfold update_remote_ref. rewrite Hz.
  unfold git_reference_lookup. rewrite Hlook.
  destruct (w_refs w !! refname); [|done].
  unfold git_reference_delete. by rewrite Hdel.
Qed.

End TipsFacts.

(** C5, as the spec states it, fails twice.  Without a tracking reference
    for the deleted ref the deletion is a no-op and the registered callback
    is not called; and a callback that returns 1 does not stop the loop. *)
Lemma tip_callback_as_stated_fails :
  ~ tip_callback_fired Examples.E0 Examples.push_done
      (Examples.tips_returns 0) Examples.w_untracked Examples.status_old
      "refs/remotes/origin/old" Examples.spec_delete /\
  ~ tip_callback_aborts Examples.E0 Examples.push_done
      (Examples.tips_returns 1) (fun _ _ _ => 1) Examples.w0
      Examples.status_old "refs/remotes/origin/old" Examples.spec_delete.
Proof.
  split.
  - unfold tip_callback_fired.
    replace (w_log _) with (@nil event) by (vm_compute; reflexivity).
    apply not_elem_of_nil.
  - unfold tip_callback_aborts. intros H.
    assert (Hfl : (update_tips_body Examples.E0 Examples.push_done
                     (Examples.tips_returns 1)
                     {| t_world := Examples.w0; t_error := 0 |}
                     Examples.status_old).1 = Continue)
      by (vm_compute; reflexivity).
    rewrite H in Hfl; [discriminate | discriminate].
Qed.

(** C5, amended.  An accepted status whose spec is a deletion, with a
    fetch refspec that maps its ref to the tracking reference [refname]
    (the reference database answers without a failure of its own).
    When [refname] does not exist, nothing is deleted, this is not an
    error, the callback is not called, and the loop goes on.  When it
    exists, it is deleted; a registered tip callback is then called with
    [refname], the remote id and the local id of the spec; the loop goes on
    when the callback returns 0 or more, and is left at once with the
    callback's return value when that is negative, the statuses that
    follow not being looked at. *)
Theorem deletion_reconciled (E : env) (push : git_push)
    (callbacks : option git_remote_callbacks) (st : tstate)
    (status : push_status) (fetch_spec : git_refspec) (refname : string)
    (spec : push_spec) (rest : list push_status) :
  msg status = None ->
  git_remote__matching_refspec E (ref status) = Some fetch_spec ->
  git_refspec_transform E fetch_spec (ref status) = Ok refname ->
  find (fun s => String.eqb (dst (refspec s)) (ref status)) (specs push)
    = Some spec ->
  git_oid_iszero (loid spec) = true ->
  refdb_fault E RefLookup refname = None ->
  refdb_fault E RefDelete refname = None ->
  let w := t_world st in
  let w' := set_refs w (delete refname (w_refs w)) in
  let ev := EvUpdateTips refname (roid spec) (loid spec) in
  let body := update_tips_body E push callbacks in
  (w_refs w !! refname = None ->
   body st status
     = (Continue, {| t_world := w; t_error := GIT_ENOTFOUND |})) /\
  (is_Some (w_refs w !! refname) ->
   match callbacks ≫= update_tips with
   | None =>
       body st status = (Continue, {| t_world := w'; t_error := 0 |})
   | Some cb =>
       let error := cb refname (roid spec) (loid spec) in
       (0 <= error ->
        body st status
          = (Continue, {| t_world := log_event w' ev; t_error := error |})) /\
       (error < 0 ->
        foreach body (status :: rest) st
          = (GotoOnError,
             {| t_world := log_event w' ev; t_error := error |}))
   end).
Proof.
  intros Hmsg Hfetch Htrans Hfind Hz Hlook Hdel w w' ev body.
  assert (Hbody := update_tips_body_found E push callbacks st status
                     fetch_spec refname spec Hmsg Hfetch Htrans Hfind).
  rewrite (update_remote_ref_delete E _ _ _ Hz Hlook Hdel) in Hbody.
  fold w in Hbody. subst body. split.
  - intros Hnone. rewrite Hbody, Hnone. done.
  - intros [id Hsome]. rewrite Hsome in Hbody. cbn in Hbody.
    destruct (callbacks ≫= update_tips) as [cb|]; [|done].
    cbn. split.
    + intros Hpos. rewrite Hbody.
      by replace (_ <? 0) with false by (symmetry; apply Z.ltb_ge; lia).
    + intros Hneg. rewrite Hbody.
      apply Z.ltb_lt in Hneg. by rewrite Hneg.
Qed.

Lemma deletion_reconciled_witness :
  let st := {| t_world := Examples.w0; t_error := 0 |} in
  let refname := "refs/remotes/origin/old" in
  let w := t_world st in
  let w' := set_refs w (delete refname (w_refs w)) in
  let ev := EvUpdateTips refname (roid Examples.spec_delete)
              (loid Examples.spec_delete) in
  let body := update_tips_body Examples.E0 Examples.push_done
                (Examples.tips_returns (-1)) in
  (w_refs w !! refname = None ->
   body st Examples.status_old
     = (Continue, {| t_world := w; t_error := GIT_ENOTFOUND |})) /\
  (is_Some (w_refs w !! refname) ->
   match Examples.tips_returns (-1) ≫= update_tips with
   | None =>
       body st Examples.status_old
         = (Continue, {| t_world := w'; t_error := 0 |})
   | Some cb =>
       let error := cb refname (roid Examples.spec_delete)
                      (loid Examples.spec_delete) in
       (0 <= error ->
        body st Examples.status_old
          = (Continue, {| t_world := log_event w' ev; t_error := error |})) /\
       (error < 0 ->
        foreach body (Examples.status_old :: [Examples.status_main]) st
          = (GotoOnError,
             {| t_world := log_event w' ev; t_error := error |}))
   end).
Proof.
  apply (deletion_reconciled Examples.E0 Examples.push_done
           (Examples.tips_returns (-1))
           {| t_world := Examples.w0; t_error := 0 |}
           Examples.status_old
           {| src := "refs/heads/old"; dst := "refs/remotes/origin/old";
              force := true |}
           "refs/remotes/origin/old" Examples.spec_delete
           [Examples.status_main]).
  - reflexivity.
  - reflexivity.
  - reflexivity.
  - reflexivity.
  - reflexivity.
  - reflexivity.
  - reflexivity.
Defined.

Section TipsLoop.

Variable E : env.
Variable push : git_push.
Variable callbacks : option git_remote_callbacks.

(** The body does not read [error]. *)
Lemma update_tips_body_same (st1 st2 : tstate) (status : push_status) :
  t_world st1 = t_world st2 ->
  same_outcome (update_tips_body E push callbacks st1 status)
               (update_tips_body E push callbacks st2 status).
Proof.
  intros Hw. unfold update_tips_body, same_outcome.
  destruct (msg status); [done|].
  destruct (git_remote__matching_refspec E (ref status)); [|done].
  destruct (git_refspec_transform E _ _); [|by rewrite Hw].
  destruct (find _ _); [|by rewrite Hw].
  rewrite Hw.
  destruct (update_remote_ref E (t_world st2) _ _) as [error w].
  destruct (error <? 0).
  { by destruct (negb _). }
  destruct (callbacks ≫= update_tips) as [cb|]; [|done].
  cbn. by destruct (_ <? 0).
Qed.

Lemma foreach_tips_same (l : list push_status) (st1 st2 : tstate) :
  t_world st1 = t_world st2 ->
  same_outcome (foreach (update_tips_body E push callbacks) l st1)
               (foreach (update_tips_body E push callbacks) l st2).
Proof.
  revert st1 st2. induction l as [|x l IH]; intros st1 st2 Hw; cbn.
  - by split.
  - pose proof (update_tips_body_same st1 st2 x Hw) as (Hfl & Hw' & He).
    destruct (update_tips_body E push callbacks st1 x) as [fl1 s1].
    destruct (update_tips_body E push callbacks st2 x) as [fl2 s2].
    cbn in *. subst fl2. destruct fl1; [by apply IH|].
    split; [done|]. split; [done|]. intros _. by apply He.
Qed.

Lemma foreach_tips_skip (before after : list push_status)
    (status : push_status) (st1 st2 : tstate) :
  (forall st, exists st',
     update_tips_body E push callbacks st status = (Continue, st') /\
     t_world st' = t_world st) ->
  t_world st1 = t_world st2 ->
  same_outcome
    (foreach (update_tips_body E push callbacks)
       (before ++ status :: after) st1)
    (foreach (update_tips_body E push callbacks) (before ++ after) st2).
Proof.
  intros Hskip. revert st1 st2.
  induction before as [|x l IH]; intros st1 st2 Hw; cbn.
  - destruct (Hskip st1) as (st' & -> & Hw').
    apply foreach_tips_same. congruence.
  - pose proof (update_tips_body_same st1 st2 x Hw) as (Hfl & Hw' & He).
    destruct (update_tips_body E push callbacks st1 x) as [fl1 s1].
    destruct (update_tips_body E push callbacks st2 x) as [fl2 s2].
    cbn in *. subst fl2. destruct fl1; [by apply IH|].
    split; [done|]. split; [done|]. intros _. by apply He.
Qed.

End TipsLoop.

(** C10.  An accepted status whose ref no fetch refspec of the remote
    matches, or whose ref is mapped to a tracking reference but is the
    destination of no spec of the session, is passed over: the body goes on
    with the next status, the world is as it was, and
    [git_push_update_tips] returns what it returns without that status. *)
Theorem unmatched_status_skipped (E : env) (push : git_push)
    (callbacks : option git_remote_callbacks) (w : world)
    (before after : list push_status) (skipped : push_status) :
  msg skipped = None ->
  (git_remote__matching_refspec E (ref skipped) = None \/
   exists fetch_spec refname,
     git_remote__matching_refspec E (ref skipped) = Some fetch_spec /\
     git_refspec_transform E fetch_spec (ref skipped) = Ok refname /\
     Forall (fun s => dst (refspec s) <> ref skipped) (specs push)) ->
  status push = before ++ skipped :: after ->
  (forall st, exists st',
     update_tips_body E push callbacks st skipped = (Continue, st') /\
     t_world st' = t_world st) /\
  git_push_update_tips E push callbacks w
    = git_push_update_tips E (set_status push (before ++ after)) callbacks w.
Proof.
  intros Hmsg Hun Hstatus.
  assert (Hskip : forall st, exists st',
    update_tips_body E push callbacks st skipped = (Continue, st') /\
    t_world st' = t_world st).
  { intros st. unfold update_tips_body. rewrite Hmsg.
    destruct Hun as [->|(fetch_spec & refname & -> & -> & Hno)].
    - by eexists.
    - destruct (find _ _) as [s|] eqn:Hfind; [|by eexists].
      apply find_some in Hfind as [Hin Heq].
      rewrite Forall_forall in Hno. apply list_elem_of_In in Hin.
      apply String.eqb_eq in Heq. by destruct (Hno s Hin). }
  split; [done|].
  unfold git_push_update_tips. rewrite Hstatus. cbn [status set_status].
  pose proof (foreach_tips_skip E push callbacks before after skipped
                {| t_world := w; t_error := 0 |}
                {| t_world := w; t_error := 0 |} Hskip eq_refl)
    as (Hfl & Hw & He).
  change (update_tips_body E (set_status push (before ++ after)) callbacks)
    with (update_tips_body E push callbacks).
  destruct (foreach _ (before ++ skipped :: after) _) as [fl1 s1].
  destruct (foreach _ (before ++ after) _) as [fl2 s2].
  cbn in *. subst fl2. destruct fl1; [by rewrite Hw|].
  by rewrite Hw, He.
Qed.

Lemma unmatched_status_skipped_witness :
  (forall st, exists st',
     update_tips_body Examples.E0 Examples.push_done_other None st
       Examples.status_other = (Continue, st') /\
     t_world st' = t_world st) /\
  git_push_update_tips Examples.E0 Examples.push_done_other None Examples.w0
    = git_push_update_tips Examples.E0
        (set_status Examples.push_done_other
           ([Examples.status_old] ++ [Examples.status_main]))
        None Examples.w0.
Proof.
  apply (unmatched_status_skipped Examples.E0 Examples.push_done_other None
           Examples.w0 [Examples.status_old] [Examples.status_main]
           Examples.status_other).
  - reflexivity.
  - left. reflexivity.
  - reflexivity.
Defined.

(** A spec comes out of [parse_refspec] with both ids all-zero. *)
Lemma parse_refspec_zero (parse : string -> result git_refspec)
    (revparse : string -> result git_object) (str : string)
    (spec : push_spec) :
  parse_refspec parse revparse str = Ok spec ->
  loid spec = 0%N /\ roid spec = 0%N.
Proof.
  unfold parse_refspec. intros H.
  destruct (parse str) as [rs|]; [|done].
  destruct (_ && _); [done|].
  destruct (_ <? 0); [done|].
  by inversion H.
Qed.


(** * Further properties of the code *)

(** ** Tag peeling *)

Lemma tag_chain_terminal (obj terminal : git_object) (ids : list git_oid) :
  tag_chain obj ids terminal -> git_object_type terminal <> GIT_OBJ_TAG.
Proof. induction 1; done. Qed.

Lemma enqueue_tag_loop_sound (E : env) (pb pb' : git_packbuilder)
    (obj target : git_object) :
  enqueue_tag_loop E pb obj = (Ok target, pb') ->
  exists ids,
    tag_chain obj ids target /\
    pb_objects pb' = pb_objects pb ++ ids /\
    pb_threads pb' = pb_threads pb.
Proof.
  revert pb. induction obj as [id|id|id|id t IH|id e]; intros pb H; cbn in H.
  1-3: inversion H; subst; exists []; rewrite app_nil_r;
       (split; [by apply tag_chain_end | done]).
  - unfold git_packbuilder_insert in H.
    destruct (packbuilder_insert_fault E pb id); [done|].
    destruct (IH _ H) as (ids & Hc & Hobjs & Hthr). cbn in *.
    exists (id :: ids). split; [by apply tag_chain_tag|].
    split; [by rewrite Hobjs, <- app_assoc | done].
  - unfold git_packbuilder_insert in H.
    by destruct (packbuilder_insert_fault E pb id).
Qed.

(** What [enqueue_tag] adds to the pack builder, whatever it returns: ids
    at the end, the thread hint as it was. *)
Lemma enqueue_tag_loop_extends (E : env) (pb : git_packbuilder)
    (obj : git_object) :
  pb_objects pb `prefix_of` pb_objects (enqueue_tag_loop E pb obj).2 /\
  pb_threads (enqueue_tag_loop E pb obj).2 = pb_threads pb.
Proof.
  revert pb. induction obj as [id|id|id|id t IH|id e]; intros pb; cbn;
    try done.
  - unfold git_packbuilder_insert.
    destruct (packbuilder_insert_fault E pb id); [done|].
    destruct (IH {| pb_objects := pb_objects pb ++ [id];
                    pb_threads := pb_threads pb |}) as [Hp Ht].
    cbn in *. split; [|done].
    etrans; [|exact Hp]. by apply prefix_app_r.
  - unfold git_packbuilder_insert.
    destruct (packbuilder_insert_fault E pb id); [done|].
    cbn. split; [by apply prefix_app_r | done].
Qed.

(** X1.  When [enqueue_tag] succeeds, the object it hands out is not a
    tag, the object looked up heads a chain of tags that ends in it, and
    the ids of exactly these tags, outermost first, were appended to the
    pack builder; this holds whichever insertions could have failed. *)
Theorem enqueue_tag_returns_peeled (E : env) (pb pb' : git_packbuilder)
    (id : git_oid) (target : git_object) :
  enqueue_tag E pb id = (Ok target, pb') ->
  git_object_type target <> GIT_OBJ_TAG /\
  exists obj ids,
    git_object_lookup E id GIT_OBJ_TAG = Ok obj /\
    tag_chain obj ids target /\
    pb_objects pb' = pb_objects pb ++ ids.
Proof.
  unfold enqueue_tag. intros H.
  destruct (git_object_lookup E id GIT_OBJ_TAG) as [obj|e]; [|done].
  destruct (enqueue_tag_loop_sound E pb pb' obj target H)
    as (ids & Hc & Hobjs & _).
  split; [by apply (tag_chain_terminal obj target ids)|].
  by exists obj, ids.
Qed.

Lemma enqueue_tag_returns_peeled_witness :
  git_object_type (Commit Examples.c4) <> GIT_OBJ_TAG /\
  exists obj ids,
    git_object_lookup Examples.E0 Examples.t1 GIT_OBJ_TAG = Ok obj /\
    tag_chain obj ids (Commit Examples.c4) /\
    pb_objects (enqueue_tag Examples.E0 Examples.pb0 Examples.t1).2
      = pb_objects Examples.pb0 ++ ids.
Proof.
  apply (enqueue_tag_returns_peeled Examples.E0 Examples.pb0
           (enqueue_tag Examples.E0 Examples.pb0 Examples.t1).2
           Examples.t1 (Commit Examples.c4)).
  reflexivity.
Defined.

(** ** The first loop of queue_objects *)

Lemma extends_refl (st : qstate) : extends st st.
Proof. by unfold extends. Qed.

Lemma extends_trans (st1 st2 st3 : qstate) :
  extends st1 st2 -> extends st2 st3 -> extends st1 st3.
Proof.
  unfold extends. intros (A1 & A2 & A3 & A4 & A5) (B1 & B2 & B3 & B4 & B5).
  repeat split; [by etrans | congruence | by etrans | congruence | congruence].
Qed.

Lemma git_revwalk_push_extends (E : env) (rw rw' : git_revwalk)
    (id : git_oid) :
  git_revwalk_push E rw id = Ok rw' ->
  rw_pushed rw' = rw_pushed rw ++ [id] /\
  rw_hidden rw' = rw_hidden rw /\
  rw_sort_time rw' = rw_sort_time rw.
Proof.
  unfold git_revwalk_push. destruct (revwalk_push_fault E id); [done|].
  intros H. by inversion H.
Qed.

Lemma seed_extends (E : env) (st : qstate) (spec : push_spec) :
  extends st (queue_objects_seed E st spec).2.
Proof.
  unfold queue_objects_seed.
  destruct (git_odb_read_header E (loid spec)) as [type|e];
    [|apply extends_refl].
  destruct (decide (type = GIT_OBJ_TAG)).
  - unfold enqueue_tag.
    destruct (git_object_lookup E (loid spec) GIT_OBJ_TAG) as [obj|e1];
      [|by unfold extends].
    pose proof (enqueue_tag_loop_extends E (q_pb st) obj) as [Hp Ht].
    destruct (enqueue_tag_loop E (q_pb st) obj) as [[target|e2] pb'];
      cbn in Hp, Ht; [|by unfold extends].
    destruct (decide (git_object_type target = GIT_OBJ_COMMIT)).
    + destruct (git_revwalk_push E (q_rw st) (git_object_id target))
        as [rw'|e3] eqn:Hrw; [|by unfold extends].
      apply git_revwalk_push_extends in Hrw as (Hpu & Hh & Hs).
      unfold extends. cbn. rewrite Hpu.
      repeat split; try done. by apply prefix_app_r.
    + unfold git_packbuilder_insert.
      destruct (packbuilder_insert_fault E pb' (git_object_id target));
        [by unfold extends|].
      unfold extends. cbn. repeat split; try done.
      etrans; [exact Hp|]. by apply prefix_app_r.
  - destruct (git_revwalk_push E (q_rw st) (loid spec)) as [rw'|e4] eqn:Hrw;
      [|apply extends_refl].
    apply git_revwalk_push_extends in Hrw as (Hpu & Hh & Hs).
    unfold extends. cbn. rewrite Hpu.
    repeat split; try done. by apply prefix_app_r.
Qed.

Lemma body_extends (E : env) (st : qstate) (spec : push_spec) :
  extends st (queue_objects_body E st spec).2.
Proof.
  unfold queue_objects_body.
  destruct (git_oid_iszero (loid spec)); [apply extends_refl|].
  destruct (git_oid_equal (loid spec) (roid spec)); [apply extends_refl|].
  pose proof (seed_extends E st spec) as Hseed.
  destruct (queue_objects_seed E st spec) as [[] st1]; cbn in Hseed; [|done].
  destruct (queue_objects_check E st1 spec) as [fl st2] eqn:Hc.
  apply check_keeps in Hc as [Hpb Hrw]. cbn.
  apply (extends_trans _ st1); [done|].
  unfold extends. rewrite Hpb, Hrw. by repeat split.
Qed.

(** X2.  The first loop of [queue_objects] only adds: however it ends,
    what the pack builder held and what the walker was asked to walk
    before the loop is still there, in place, with the new ids appended;
    the thread hint, the hidden ids and the sorting are not touched. *)
Theorem enumeration_only_adds (E : env) (ss : list push_spec) (st : qstate) :
  extends st (foreach (queue_objects_body E) ss st).2.
Proof.
  revert st. induction ss as [|spec ss IH]; intros st; cbn.
  - apply extends_refl.
  - pose proof (body_extends E st spec) as Hb.
    destruct (queue_objects_body E st spec) as [[] st1]; cbn in Hb; [|done].
    by apply (extends_trans _ st1).
Qed.

(** X3.  A spec whose object is not an annotated tag, commit or not: the
    seeding asks the walker for the local id itself and inserts nothing
    into the pack builder; when the walker refuses the id (a tree, a blob)
    the loop is left with the pack builder, the walker and [error] as they
    were. *)
Theorem lightweight_is_walked (E : env) (st : qstate) (spec : push_spec)
    (type : git_otype) :
  git_odb_read_header E (loid spec) = Ok type ->
  type <> GIT_OBJ_TAG ->
  match revwalk_push_fault E (loid spec) with
  | None =>
      exists st',
        queue_objects_seed E st spec = (Continue, st') /\
        q_pb st' = q_pb st /\
        rw_pushed (q_rw st') = rw_pushed (q_rw st) ++ [loid spec] /\
        q_error st' = q_error st
  | Some _ => queue_objects_seed E st spec = (GotoOnError, st)
  end.
Proof.
  intros Hhdr Hty. unfold queue_objects_seed. rewrite Hhdr.
  destruct (decide (type = GIT_OBJ_TAG)); [done|].
  unfold git_revwalk_push.
  destruct (revwalk_push_fault E (loid spec)); [done|].
  by eexists.
Qed.

Lemma lightweight_is_walked_witness :
  match revwalk_push_fault Examples.E0 (loid Examples.spec_tree) with
  | None =>
      exists st',
        queue_objects_seed Examples.E0 Examples.st0 Examples.spec_tree
          = (Continue, st') /\
        q_pb st' = q_pb Examples.st0 /\
        rw_pushed (q_rw st')
          = rw_pushed (q_rw Examples.st0) ++ [loid Examples.spec_tree] /\
        q_error st' = q_error Examples.st0
  | Some _ =>
      queue_objects_seed Examples.E0 Examples.st0 Examples.spec_tree
        = (GotoOnError, Examples.st0)
  end.
Proof.
  apply (lightweight_is_walked Examples.E0 Examples.st0 Examples.spec_tree
           GIT_OBJ_TREE).
  - reflexivity.
  - discriminate.
Defined.

Lemma foreach_passed_over (E : env) (ss : list push_spec) (st : qstate) :
  Forall passed_over ss ->
  foreach (queue_objects_body E) ss st = (Continue, st).
Proof.
  induction 1 as [|spec ss Hx _ IH]; cbn; [done|].
  assert (Hb : queue_objects_body E st spec = (Continue, st)).
  { destruct Hx as [Hz|Heq].
    - apply skip_deleted. by apply git_oid_iszero_spec.
    - by apply skip_up_to_date. }
  by rewrite Hb.
Qed.

(** X4.  A push of deletions and up-to-date specs only: the loop pushes
    nothing on the walker and inserts nothing, and [queue_objects] is the
    final walk from no want at all, the advertised heads hidden: what the
    pack builder makes of it is what is returned. *)
Theorem nothing_to_enumerate (E : env) (push : git_push)
    (pb0 : git_packbuilder) :
  revwalk_new_fault E = None ->
  Forall passed_over (specs push) ->
  queue_objects E push pb0
    = git_packbuilder_insert_walk E pb0
        (hide_heads E (refs (remote push))
           {| rw_sort_time := true; rw_pushed := []; rw_hidden := [] |}).
Proof.
  intros Hnew Hall. unfold queue_objects. rewrite Hnew.
  by rewrite (foreach_passed_over E _ _ Hall).
Qed.

Lemma nothing_to_enumerate_witness :
  queue_objects Examples.E0 Examples.push_nothing Examples.pb0
    = git_packbuilder_insert_walk Examples.E0 Examples.pb0
        (hide_heads Examples.E0 (refs (remote Examples.push_nothing))
           {| rw_sort_time := true; rw_pushed := []; rw_hidden := [] |}).
Proof.
  apply (nothing_to_enumerate Examples.E0 Examples.push_nothing Examples.pb0).
  - reflexivity.
  - apply Forall_cons. split; [by left|].
    apply Forall_cons. split; [by right|]. apply Forall_nil_2.
Defined.

(** A check that was made and passed leaves 0 in [error]. *)
Lemma check_passed_error (E : env) (st st' : qstate) (spec : push_spec) :
  force (refspec spec) = false ->
  git_oid_iszero (roid spec) = false ->
  queue_objects_check E st spec = (Continue, st') ->
  q_error st' = 0.
Proof.
  unfold queue_objects_check. intros -> ->. cbn [negb].
  destruct (negb (git_odb_exists E (roid spec))); [done|].
  destruct (_ || _); [done|].
  destruct (git_merge_base E (loid spec) (roid spec)) as [base|e];
    cbn [ret]; [|done].
  replace (0 <? 0) with false by done. intros H. by inversion H.
Qed.

(** X5.  [git_odb_read_header] is only tested for failure, its value is
    not kept in [error].  When it fails for a spec, [queue_objects]
    returns what [error] held before: -1 when every spec before was passed
    over, but 0 when the spec before went through its fast-forward check;
    [do_push] then takes the enumeration for done and calls the transport
    with the pack builder as the loop left it. *)
Theorem header_failure_returns_earlier_error (E : env)
    (tpush : git_push -> option git_remote_callbacks -> Z * git_push)
    (callbacks : option git_remote_callbacks) (w : world)
    (push : git_push) (pb0 : git_packbuilder)
    (before after : list push_spec) (spec : push_spec)
    (st : qstate) (e : positive) :
  revwalk_new_fault E = None ->
  specs push = before ++ spec :: after ->
  foreach (queue_objects_body E) before (queue_objects_init pb0)
    = (Continue, st) ->
  git_oid_iszero (loid spec) = false ->
  git_oid_equal (loid spec) (roid spec) = false ->
  git_odb_read_header E (loid spec) = Err e ->
  queue_objects E push pb0 = (q_error st, q_pb st) /\
  (Forall passed_over before -> queue_objects E push pb0 = (-1, pb0)) /\
  (forall before' prev st0,
     before = before' ++ [prev] ->
     foreach (queue_objects_body E) before' (queue_objects_init pb0)
       = (Continue, st0) ->
     git_oid_iszero (loid prev) = false ->
     git_oid_equal (loid prev) (roid prev) = false ->
     force (refspec prev) = false ->
     git_oid_iszero (roid prev) = false ->
     queue_objects E push pb0 = (0, q_pb st) /\
     do_push_send E tpush callbacks w push pb0
       = ((tpush (set_pb push (Some (q_pb st))) callbacks).1,
          set_pb (tpush (set_pb push (Some (q_pb st))) callbacks).2 None,
          log_event w
            (EvTransportPush (pb_objects (q_pb st)) (specs push)))).
Proof.
  intros Hnew Hspecs Hbefore Hnz Hne Hhdr.
  assert (Hq : queue_objects E push pb0 = (q_error st, q_pb st)).
  { unfold queue_objects. rewrite Hnew, Hspecs.
    rewrite (foreach_abort _ before after spec _ st st Hbefore); [done|].
    rewrite (body_enumerated E st spec Hnz Hne).
    unfold queue_objects_seed. by rewrite Hhdr. }
  split; [done|]. split.
  - intros Hall. rewrite Hq.
    rewrite (foreach_passed_over E _ _ Hall) in Hbefore.
    by inversion Hbefore.
  - intros before' prev st0 -> Hbefore' Hnz' Hne' Hforce Hrz.
    rewrite (foreach_app _ _ _ _ _ Hbefore') in Hbefore. cbn in Hbefore.
    destruct (queue_objects_body E st0 prev) as [[] st1] eqn:Hprev;
      [|done].
    inversion Hbefore; subst st1; clear Hbefore.
    rewrite (body_enumerated E st0 prev Hnz' Hne') in Hprev.
    destruct (queue_objects_seed E st0 prev) as [[] st1]; [|done].
    pose proof (check_passed_error E st1 st prev Hforce Hrz Hprev) as Herr.
    rewrite Herr in Hq. split; [done|].
    unfold do_push_send. rewrite Hq.
    replace (0 <? 0) with false by done.
    by destruct (tpush _ _).
Qed.

Lemma header_failure_returns_earlier_error_witness :
  let st := (foreach (queue_objects_body Examples.E0) [Examples.spec_main]
               (queue_objects_init Examples.pb0)).2 in
  queue_objects Examples.E0 Examples.push_then_missing Examples.pb0
    = (q_error st, q_pb st) /\
  (Forall passed_over [Examples.spec_main] ->
   queue_objects Examples.E0 Examples.push_then_missing Examples.pb0
     = (-1, Examples.pb0)) /\
  (forall before' prev st0,
     [Examples.spec_main] = before' ++ [prev] ->
     foreach (queue_objects_body Examples.E0) before'
       (queue_objects_init Examples.pb0) = (Continue, st0) ->
     git_oid_iszero (loid prev) = false ->
     git_oid_equal (loid prev) (roid prev) = false ->
     force (refspec prev) = false ->
     git_oid_iszero (roid prev) = false ->
     queue_objects Examples.E0 Examples.push_then_missing Examples.pb0
       = (0, q_pb st) /\
     do_push_send Examples.E0 (Examples.accept_all true) None Examples.w0
       Examples.push_then_missing Examples.pb0
       = ((Examples.accept_all true
             (set_pb Examples.push_then_missing (Some (q_pb st))) None).1,
          set_pb (Examples.accept_all true
                    (set_pb Examples.push_then_missing (Some (q_pb st)))
                    None).2 None,
          log_event Examples.w0
            (EvTransportPush (pb_objects (q_pb st))
               (specs Examples.push_then_missing)))).
Proof.
  intros st.
  apply (header_failure_returns_earlier_error Examples.E0
           (Examples.accept_all true) None Examples.w0
           Examples.push_then_missing Examples.pb0
           [Examples.spec_main] [] Examples.spec_missing st 3%positive).
  - reflexivity.
  - reflexivity.
  - reflexivity.
  - reflexivity.
  - reflexivity.
  - reflexivity.
Defined.

Lemma seed_with_ancestry (E : env) (exists_ : git_oid -> bool)
    (merge_base : git_oid -> git_oid -> result git_oid)
    (st : qstate) (spec : push_spec) :
  queue_objects_seed (with_ancestry E exists_ merge_base) st spec
    = queue_objects_seed E st spec.
Proof.
  assert (Hloop : forall obj pb,
    enqueue_tag_loop (with_ancestry E exists_ merge_base) pb obj
      = enqueue_tag_loop E pb obj).
  { induction obj as [id|id|id|id t IH|id e]; intros pb;
      [done|done|done| |done].
    cbn. unfold git_packbuilder_insert. cbn.
    destruct (packbuilder_insert_fault E pb id); [done|]. apply IH. }
  unfold queue_objects_seed, enqueue_tag. cbn.
  destruct (git_odb_read_header E (loid spec)) as [type|e1]; [|done].
  destruct (decide (type = GIT_OBJ_TAG)); [|done].
  destruct (git_object_lookup E (loid spec) GIT_OBJ_TAG) as [obj|e2]; [|done].
  by rewrite Hloop.
Qed.

(** X6.  For a forced spec, and for a spec whose remote id is all-zero
    (the ref is new on the remote), the enumeration asks neither whether
    the remote id exists locally nor for a merge base: whatever the answers
    would be, the outcome for the spec is the same. *)
Theorem forced_or_new_skips_ancestry (E : env) (exists_ : git_oid -> bool)
    (merge_base : git_oid -> git_oid -> result git_oid)
    (st : qstate) (spec : push_spec) :
  force (refspec spec) = true \/ roid spec = 0%N ->
  queue_objects_body (with_ancestry E exists_ merge_base) st spec
    = queue_objects_body E st spec.
Proof.
  intros H. unfold queue_objects_body. rewrite seed_with_ancestry.
  destruct (git_oid_iszero (loid spec)); [done|].
  destruct (git_oid_equal (loid spec) (roid spec)); [done|].
  destruct (queue_objects_seed E st spec) as [[] st1]; [|done].
  unfold queue_objects_check.
  destruct (force (refspec spec)) eqn:Hf; cbn [negb]; [done|].
  destruct H as [H|H]; [done|].
  apply git_oid_iszero_spec in H. by rewrite H.
Qed.

Lemma forced_or_new_skips_ancestry_witness :
  queue_objects_body
    (with_ancestry Examples.E0 (fun _ => false) (fun _ _ => Err 3))
    Examples.st0 Examples.spec_forced
  = queue_objects_body Examples.E0 Examples.st0 Examples.spec_forced.
Proof.
  apply (forced_or_new_skips_ancestry Examples.E0 (fun _ => false)
           (fun _ _ => Err 3) Examples.st0 Examples.spec_forced).
  left. reflexivity.
Defined.

(** X7.  The second loop of [queue_objects] leaves the wants and the
    sorting of the walker alone, and asks the walker to hide the id of
    every advertised head whose id is not all-zero, in the order of the
    heads; a head with an all-zero id is never hidden.  What the walker
    answers is not looked at: the ids it refuses are just not hidden. *)
Theorem heads_are_hidden (E : env) (heads : list git_remote_head)
    (rw : git_revwalk) :
  rw_pushed (hide_heads E heads rw) = rw_pushed rw /\
  rw_sort_time (hide_heads E heads rw) = rw_sort_time rw /\
  rw_hidden (hide_heads E heads rw)
    = rw_hidden rw ++
      filter (fun id => id <> 0%N /\ revwalk_hide_fault E id = None)
        (oid <$> heads).
Proof.
  unfold hide_heads. revert rw.
  induction heads as [|head heads IH]; intros rw.
  - cbn. by rewrite app_nil_r.
  - rewrite fmap_cons, filter_cons. cbn [fold_left].
    destruct (git_oid_iszero (oid head)) eqn:Hz.
    + apply git_oid_iszero_spec in Hz.
      destruct (decide _) as [[Hnz _]|_]; [done|]. apply IH.
    + assert (Hnz : oid head <> 0%N).
      { intros Hnz. apply git_oid_iszero_spec in Hnz. congruence. }
      destruct (IH (git_revwalk_hide E rw (oid head))) as (H1 & H2 & H3).
      rewrite H1, H2, H3. unfold git_revwalk_hide.
      destruct (revwalk_hide_fault E (oid head)) eqn:Hf.
      * destruct (decide _) as [[_ ?]|_]; done.
      * destruct (decide _) as [_|Hn]; [|by destruct Hn].
        cbn. by rewrite <- app_assoc.
Qed.

(** ** Adding refspecs *)

Lemma parse_refspec_acceptable (parse : string -> result git_refspec)
    (revparse : string -> result git_object) (str : string) :
  match parse_refspec parse revparse str with
  | Ok spec =>
      acceptable parse revparse str (refspec spec) /\
      loid spec = 0%N /\ roid spec = 0%N
  | Err e => e = 1%positive /\ ~ exists rs, acceptable parse revparse str rs
  end.
Proof.
  unfold parse_refspec, acceptable, check_lref, check_rref.
  destruct (parse str) as [rs|e] eqn:Hp.
  2:{ split; [done|]. intros (rs & H & _). congruence. }
  destruct (String.eqb_spec (src rs) "") as [Hs|Hs]; cbn [negb andb].
  - destruct (String.prefix "refs/" (dst rs)) eqn:Hd; cbn.
    + split; [|done]. split; [done|]. split; [by left | done].
    + split; [done|]. intros (rs' & H & _ & Hd').
      assert (rs' = rs) by congruence. subst. congruence.
  - destruct (revparse (src rs)) as [obj|e] eqn:Hr; cbn.
    + destruct (String.prefix "refs/" (dst rs)) eqn:Hd; cbn.
      * split; [|done]. split; [done|]. split; [|done].
        right. by exists obj.
      * split; [done|]. intros (rs' & H & _ & Hd').
        assert (rs' = rs) by congruence. subst. congruence.
    + split; [done|]. intros (rs' & H & [Hs'|[obj Ho]] & _);
        assert (rs' = rs) by congruence; subst; congruence.
Qed.

(** X8.  [git_push_add_refspec] takes a refspec exactly when it parses,
    its source is empty or resolves to an object, and its destination
    starts with [refs/]: it then returns 0 and the session has one more
    spec, at the end, with that refspec and both ids all-zero.  Otherwise
    it returns -1 and the session is as it was.  For an empty source the
    revision parser is not asked. *)
Theorem add_refspec_accepts (parse : string -> result git_refspec)
    (revparse : string -> result git_object)
    (push : git_push) (str : string) :
  (forall rs,
     acceptable parse revparse str rs ->
     git_push_add_refspec parse revparse push str
       = (0, set_specs push
               (specs push ++
                [{| refspec := rs; loid := 0%N; roid := 0%N |}]))) /\
  ((~ exists rs, acceptable parse revparse str rs) ->
   git_push_add_refspec parse revparse push str = (-1, push)).
Proof.
  pose proof (parse_refspec_acceptable parse revparse str) as H.
  unfold git_push_add_refspec.
  destruct (parse_refspec parse revparse str) as [spec|e].
  - destruct H as (Hacc & Hl & Hr). split.
    + intros rs (Hp & _). destruct Hacc as (Hp' & _).
      assert (rs = refspec spec) by congruence. subst rs.
      destruct spec as [rs l r]. cbn in *. by subst.
    + intros Hno. destruct Hno. by exists (refspec spec).
  - destruct H as [_ Hno]. split; [|done].
    intros rs Hacc. destruct Hno. by exists rs.
Qed.

Lemma add_refspec_fields (parse : string -> result git_refspec)
    (revparse : string -> result git_object)
    (push : git_push) (str : string) :
  let push' := (git_push_add_refspec parse revparse push str).2 in
  specs push' = specs push ++
                match parsed_spec parse revparse str with
                | Some spec => [spec]
                | None => []
                end /\
  updates push' = updates push /\
  status push' = status push /\
  remote push' = remote push.
Proof.
  unfold git_push_add_refspec, parsed_spec.
  destruct (parse_refspec parse revparse str); cbn; [done|].
  by rewrite app_nil_r.
Qed.

(** X9.  Refspecs added one after the other: the specs of the session are
    the ones it had, followed by one spec for each refspec that was taken,
    in the order of the additions, duplicates of a destination included; a
    refspec that was refused leaves no trace and does not disturb the ones
    before or after.  Updates, statuses and the remote are not touched. *)
Theorem added_refspecs_in_order (parse : string -> result git_refspec)
    (revparse : string -> result git_object)
    (push : git_push) (strs : list string) :
  specs (add_refspecs parse revparse push strs)
    = specs push ++ omap (parsed_spec parse revparse) strs /\
  updates (add_refspecs parse revparse push strs) = updates push /\
  status (add_refspecs parse revparse push strs) = status push /\
  remote (add_refspecs parse revparse push strs) = remote push.
Proof.
  unfold add_refspecs. revert push.
  induction strs as [|str strs IH]; intros push; cbn.
  - by rewrite app_nil_r.
  - destruct (IH (git_push_add_refspec parse revparse push str).2)
      as (H1 & H2 & H3 & H4).
    destruct (add_refspec_fields parse revparse push str)
      as (F1 & F2 & F3 & F4).
    rewrite H1, H2, H3, H4, F1, F2, F3, F4.
    split; [|done]. rewrite <- app_assoc.
    by destruct (parsed_spec parse revparse str).
Qed.

Lemma add_refspec_accepts_witness :
  git_push_add_refspec Examples.parse Examples.revparse
    (git_push_new {| refs := []; connected := false |}) ":refs/heads/old"
  = (0, set_specs (git_push_new {| refs := []; connected := false |})
          (specs (git_push_new {| refs := []; connected := false |}) ++
           [{| refspec := {| src := ""; dst := "refs/heads/old";
                             force := false |};
               loid := 0%N; roid := 0%N |}])).
Proof.
  apply (add_refspec_accepts Examples.parse Examples.revparse
           (git_push_new {| refs := []; connected := false |})
           ":refs/heads/old").
  split; [reflexivity|]. split; [by left | reflexivity].
Defined.

(** ** Work resolution that fails *)

Lemma calculate_work_loop_partial (E : env) (w : world)
    (heads : list git_remote_head) (before after : list push_spec)
    (bad : push_spec) (ups : list git_push_update) :
  Forall (fun s => ~ unresolvable E w s) before ->
  unresolvable E w bad ->
  exists before',
    Forall2 (resolved E w heads) before before' /\
    calculate_work_loop E w heads (before ++ bad :: after) ups
      = (-1, before' ++ bad :: after, ups ++ map add_update before').
Proof.
  intros Hbefore Hbad. revert ups.
  induction Hbefore as [|spec before Hspec _ IH]; intros ups; cbn.
  - exists []. split; [constructor|]. cbn. rewrite app_nil_r.
    destruct (source_resolved_or_not E w bad) as [[l Hl]|[[e He] _]].
    + destruct Hbad as [Hsrc [e He]].
      destruct (String.eqb_spec (src (refspec bad)) "") as [Hs|Hs];
        cbn [negb] in Hl; congruence.
    + by rewrite He.
  - destruct (source_resolved_or_not E w spec) as [[l Hl]|[_ Hun]]; [|done].
    rewrite Hl.
    match goal with
    | |- context [calculate_work_loop E w heads _ ?u] =>
        destruct (IH u) as (before' & Hall & Heq)
    end.
    rewrite Heq.
    match goal with
    | |- context [add_update ?s] => exists (s :: before')
    end.
    split.
    + constructor; [|done]. unfold resolved. cbn.
      split; [done|]. split; [|done].
      destruct (negb _); [done | by inversion Hl].
    + cbn. by rewrite <- app_assoc.
Qed.

(** X10.  Work resolution that fails leaves its work in the session.
    When the first spec whose source cannot be resolved is [bad], the
    function returns -1; the specs before [bad] are resolved in place and
    their updates are appended to the updates of the session, while [bad]
    and the specs after it are as they were and have no update. *)
Theorem work_resolution_stops_at_first_failure (E : env) (w : world)
    (push : git_push) (before after : list push_spec) (bad : push_spec) :
  specs push = before ++ bad :: after ->
  Forall (fun s => ~ unresolvable E w s) before ->
  unresolvable E w bad ->
  exists before',
    Forall2 (resolved E w (refs (remote push))) before before' /\
    calculate_work E w push
      = (-1,
         set_updates (set_specs push (before' ++ bad :: after))
           (updates push ++ map add_update before')).
Proof.
  intros Hspecs Hbefore Hbad.
  destruct (calculate_work_loop_partial E w (refs (remote push))
              before after bad (updates push) Hbefore Hbad)
    as (before' & Hall & Heq).
  exists before'. split; [done|].
  unfold calculate_work. by rewrite Hspecs, Heq.
Qed.

Lemma work_resolution_stops_at_first_failure_witness :
  exists before',
    Forall2 (resolved Examples.E0 Examples.w0
               (refs (remote Examples.push_missing)))
      [Examples.mk_spec "refs/heads/main" "refs/heads/main" false 0%N 0%N]
      before' /\
    calculate_work Examples.E0 Examples.w0 Examples.push_missing
      = (-1,
         set_updates
           (set_specs Examples.push_missing
              (before' ++
               Examples.mk_spec "refs/heads/none" "refs/heads/none" false
                 0%N 0%N :: []))
           (updates Examples.push_missing ++ map add_update before')).
Proof.
  apply (work_resolution_stops_at_first_failure Examples.E0 Examples.w0
           Examples.push_missing
           [Examples.mk_spec "refs/heads/main" "refs/heads/main" false
              0%N 0%N]
           []
           (Examples.mk_spec "refs/heads/none" "refs/heads/none" false
              0%N 0%N)).
  - reflexivity.
  - apply Forall_cons. split; [|apply Forall_nil_2].
    intros [_ [e He]]. vm_compute in He. discriminate.
  - split; [discriminate|]. exists 3%positive. reflexivity.
Defined.

(** ** Tip reconciliation, further *)

Section TipsMore.

Variable E : env.
Variable push : git_push.
Variable callbacks : option git_remote_callbacks.

Lemma foreach_tips_rejected (l : list push_status) (st : tstate) :
  foreach (update_tips_body E push callbacks) l st
    = foreach (update_tips_body E push callbacks)
        (filter (fun s => msg s = None) l) st.
Proof.
  revert st. induction l as [|s l IH]; intros st; [done|].
  rewrite filter_cons. destruct (decide (msg s = None)) as [Hm|Hm].
  - cbn. destruct (update_tips_body E push callbacks st s) as [[] st'];
      [apply IH | done].
  - cbn. unfold update_tips_body at 1.
    destruct (msg s); [apply IH | done].
Qed.

(** The world after one turn of the loop: a reference other than the
    tracking reference of the status is as it was. *)
Lemma update_tips_body_frame (st : tstate) (s : push_status) (n : string) :
  tracking_name E s <> Some n ->
  w_refs (t_world (update_tips_body E push callbacks st s).2) !! n
    = w_refs (t_world st) !! n.
Proof.
  unfold tracking_name, update_tips_body. intros Hn.
  destruct (msg s); [done|].
  destruct (git_remote__matching_refspec E (ref s)) as [fs|]; [|done].
  destruct (git_refspec_transform E fs (ref s)) as [refname|e]; [|done].
  assert (Hne : refname <> n) by congruence.
  destruct (find _ _) as [spec|]; [|done].
  assert (Hw : w_refs (update_remote_ref E (t_world st) spec refname).2 !! n
               = w_refs (t_world st) !! n).
  { unfold update_remote_ref, git_reference_lookup, git_reference_delete,
      git_reference_create.
    destruct (git_oid_iszero (loid spec)).
    - destruct (refdb_fault E RefLookup refname); [done|].
      destruct (w_refs (t_world st) !! refname); [|done].
      destruct (refdb_fault E RefDelete refname); [done|].
      cbn. by apply lookup_delete_ne.
    - destruct (refdb_fault E RefCreate refname); [done|].
      cbn. by apply lookup_insert_ne. }
  destruct (update_remote_ref E (t_world st) spec refname) as [error w'].
  cbn in Hw. destruct (error <? 0).
  { by destruct (negb _). }
  destruct (callbacks ≫= update_tips) as [cb|]; [|done].
  cbn. by destruct (_ <? 0).
Qed.

(** [update_remote_ref] does not write the log. *)
Lemma update_remote_ref_log (w : world) (spec : push_spec) (n : string) :
  w_log (update_remote_ref E w spec n).2 = w_log w.
Proof.
  unfold update_remote_ref, git_reference_lookup, git_reference_delete,
    git_reference_create.
  destruct (git_oid_iszero (loid spec)).
  - destruct (refdb_fault E RefLookup n); [done|].
    destruct (w_refs w !! n); [|done].
    by destruct (refdb_fault E RefDelete n).
  - by destruct (refdb_fault E RefCreate n).
Qed.

(** The log after one turn of the loop: at most one call of the tip
    callback was added, none when no callback is registered. *)
Lemma update_tips_body_log (st : tstate) (s : push_status) :
  exists evs,
    w_log (t_world (update_tips_body E push callbacks st s).2)
      = w_log (t_world st) ++ evs /\
    Forall is_update_tips evs /\
    (length evs <= 1)%nat /\
    (callbacks ≫= update_tips = None -> evs = []).
Proof.
  assert (Hnil : forall w : world,
    w_log w = w_log w ++ [] /\ Forall is_update_tips [] /\
    (length (@nil event) <= 1)%nat /\
    (callbacks ≫= update_tips = None -> @nil event = [])).
  { intros w. rewrite app_nil_r. repeat split; by try constructor. }
  unfold update_tips_body.
  destruct (msg s); [by exists []|].
  destruct (git_remote__matching_refspec E (ref s)) as [fs|];
    [|by exists []].
  destruct (git_refspec_transform E fs (ref s)) as [refname|e];
    [|by exists []].
  destruct (find _ _) as [spec|]; [|by exists []].
  pose proof (update_remote_ref_log (t_world st) spec refname) as Hlog.
  destruct (update_remote_ref E (t_world st) spec refname) as [error w'].
  cbn in Hlog. destruct (error <? 0).
  { exists []. destruct (negb _); cbn; rewrite Hlog; apply Hnil. }
  destruct (callbacks ≫= update_tips) as [cb|].
  - exists [EvUpdateTips refname (roid spec) (loid spec)].
    split; [|split; [by repeat constructor | done]].
    cbn. destruct (_ <? 0); cbn; by rewrite Hlog.
  - exists []. cbn. rewrite Hlog. apply Hnil.
Qed.

(** When the loop is left through [on_error], [error] is negative. *)
Lemma update_tips_body_abort (st st' : tstate) (s : push_status) :
  update_tips_body E push callbacks st s = (GotoOnError, st') ->
  t_error st' < 0.
Proof.
  unfold update_tips_body.
  destruct (msg s); [done|].
  destruct (git_remote__matching_refspec E (ref s)) as [fs|]; [|done].
  destruct (git_refspec_transform E fs (ref s)) as [refname|e].
  2:{ intros H. inversion H; subst. cbn. lia. }
  destruct (find _ _) as [spec|]; [|done].
  destruct (update_remote_ref E (t_world st) spec refname) as [error w'].
  destruct (error <? 0) eqn:Herr.
  { destruct (negb _); [|done]. intros H. inversion H; subst. cbn.
    by apply Z.ltb_lt. }
  destruct (callbacks ≫= update_tips) as [cb|]; [|done].
  cbn. destruct (cb refname (roid spec) (loid spec) <? 0) eqn:Hcb; [|done].
  intros H. inversion H; subst. cbn. by apply Z.ltb_lt.
Qed.

End TipsMore.

(** X11.  Statuses that carry a message (the remote rejected the update)
    take no part in tip reconciliation: [git_push_update_tips] does to the
    references, calls back and returns what it would with these statuses
    removed from the session. *)
Theorem rejected_statuses_ignored (E : env) (push : git_push)
    (callbacks : option git_remote_callbacks) (w : world) :
  git_push_update_tips E push callbacks w
    = git_push_update_tips E
        (set_status push (filter (fun s => msg s = None) (status push)))
        callbacks w.
Proof.
  unfold git_push_update_tips. cbn [status set_status].
  change (update_tips_body E (set_status push _) callbacks)
    with (update_tips_body E push callbacks).
  by rewrite (foreach_tips_rejected E push callbacks (status push)).
Qed.

(** X12.  An accepted status of an update (local id not all-zero) whose
    ref a fetch refspec maps to the tracking reference [refname]: when the
    reference database takes the write, [refname] points to the local id
    of the spec afterwards, whether it existed or not and whatever it
    pointed to; the other references are as they were; and a registered
    tip callback was called once, with [refname], the remote id and the
    local id. *)
Theorem tracking_ref_updated (E : env) (push : git_push)
    (callbacks : option git_remote_callbacks) (st : tstate)
    (accepted : push_status) (fetch_spec : git_refspec) (refname : string)
    (spec : push_spec) :
  msg accepted = None ->
  git_remote__matching_refspec E (ref accepted) = Some fetch_spec ->
  git_refspec_transform E fetch_spec (ref accepted) = Ok refname ->
  find (fun s => String.eqb (dst (refspec s)) (ref accepted)) (specs push)
    = Some spec ->
  git_oid_iszero (loid spec) = false ->
  refdb_fault E RefCreate refname = None ->
  let out := update_tips_body E push callbacks st accepted in
  w_refs (t_world out.2) = <[refname := loid spec]> (w_refs (t_world st)) /\
  w_log (t_world out.2)
    = w_log (t_world st) ++
      match callbacks ≫= update_tips with
      | Some _ => [EvUpdateTips refname (roid spec) (loid spec)]
      | None => []
      end /\
  (out.1 = GotoOnError <->
   exists cb, callbacks ≫= update_tips = Some cb /\
              cb refname (roid spec) (loid spec) < 0).
Proof.
  intros Hmsg Hfetch Htrans Hfind Hnz Hcreate out. subst out.
  rewrite (update_tips_body_found E push callbacks st accepted fetch_spec
             refname spec Hmsg Hfetch Htrans Hfind).
  unfold update_remote_ref, git_reference_create. rewrite Hnz, Hcreate.
  cbn. destruct (callbacks ≫= update_tips) as [cb|]; cbn.
  - destruct (cb refname (roid spec) (loid spec) <? 0) eqn:Hcb; cbn.
    + split; [done|]. split; [done|]. split; [|done].
      intros _. exists cb. split; [done | by apply Z.ltb_lt].
    + split; [done|]. split; [done|]. split; [done|].
      intros (cb' & Heq & Hneg). inversion Heq; subst.
      apply Z.ltb_lt in Hneg. congruence.
  - rewrite app_nil_r. split; [done|]. split; [done|]. split; [done|].
    by intros (cb' & Heq & _).
Qed.

Lemma tracking_ref_updated_witness :
  let st := {| t_world := Examples.w0; t_error := 0 |} in
  let out := update_tips_body Examples.E0 Examples.push_done
               (Examples.tips_returns 0) st Examples.status_main in
  w_refs (t_world out.2)
    = <["refs/remotes/origin/main" := loid Examples.spec_main]>
        (w_refs (t_world st)) /\
  w_log (t_world out.2)
    = w_log (t_world st) ++
      match Examples.tips_returns 0 ≫= update_tips with
      | Some _ =>
          [EvUpdateTips "refs/remotes/origin/main"
             (roid Examples.spec_main) (loid Examples.spec_main)]
      | None => []
      end /\
  (out.1 = GotoOnError <->
   exists cb, Examples.tips_returns 0 ≫= update_tips = Some cb /\
              cb "refs/remotes/origin/main" (roid Examples.spec_main)
                (loid Examples.spec_main) < 0).
Proof.
  apply (tracking_ref_updated Examples.E0 Examples.push_done
           (Examples.tips_returns 0)
           {| t_world := Examples.w0; t_error := 0 |}
           Examples.status_main
           {| src := "refs/heads/main"; dst := "refs/remotes/origin/main";
              force := true |}
           "refs/remotes/origin/main" Examples.spec_main).
  - reflexivity.
  - reflexivity.
  - reflexivity.
  - reflexivity.
  - reflexivity.
  - reflexivity.
Defined.

(** X13.  [git_push_update_tips] never returns a positive value.  It
    returns 0 exactly when the loop went through all the statuses, a tip
    callback that returns a positive value included, and a negative value
    when the loop was left: the error of the mapping, of the reference
    database (not finding the reference apart), or of the callback. *)
Theorem update_tips_returns_zero_or_negative (E : env) (push : git_push)
    (callbacks : option git_remote_callbacks) (w : world) :
  (git_push_update_tips E push callbacks w).1 <= 0 /\
  ((git_push_update_tips E push callbacks w).1 = 0 <->
   (foreach (update_tips_body E push callbacks) (status push)
      {| t_world := w; t_error := 0 |}).1 = Continue).
Proof.
  unfold git_push_update_tips.
  generalize {| t_world := w; t_error := 0 |}.
  induction (status push) as [|s l IH]; intros st; cbn; [done|].
  destruct (update_tips_body E push callbacks st s) as [[] st'] eqn:Hb.
  - apply IH.
  - apply update_tips_body_abort in Hb. cbn. split; [lia|].
    split; [lia | done].
Qed.

Lemma foreach_tips_frame (E : env) (push : git_push)
    (callbacks : option git_remote_callbacks)
    (l : list push_status) (st : tstate) (n : string) :
  Forall (fun s => tracking_name E s <> Some n) l ->
  w_refs (t_world (foreach (update_tips_body E push callbacks) l st).2) !! n
    = w_refs (t_world st) !! n.
Proof.
  intros Hall. revert st.
  induction Hall as [|s l Hs _ IH]; intros st; cbn; [done|].
  pose proof (update_tips_body_frame E push callbacks st s n Hs) as Hf.
  destruct (update_tips_body E push callbacks st s) as [[] st']; cbn in Hf.
  - by rewrite IH.
  - done.
Qed.

(** X14.  Tip reconciliation writes tracking references only: a
    reference that no status of the session is mapped to by a fetch
    refspec, the branch that was pushed from for one, has the same value
    or the same absence after [git_push_update_tips] as before, however
    the function ends. *)
Theorem update_tips_writes_tracking_refs_only (E : env) (push : git_push)
    (callbacks : option git_remote_callbacks) (w : world) (n : string) :
  Forall (fun s => tracking_name E s <> Some n) (status push) ->
  w_refs (git_push_update_tips E push callbacks w).2 !! n = w_refs w !! n.
Proof.
  intros Hall. unfold git_push_update_tips.
  pose proof (foreach_tips_frame E push callbacks (status push)
                {| t_world := w; t_error := 0 |} n Hall) as Hf.
  by destruct (foreach _ _ _) as [[] st'].
Qed.

Lemma update_tips_writes_tracking_refs_only_witness :
  w_refs (git_push_update_tips Examples.E0 Examples.push_done None
            Examples.w0).2 !! "refs/heads/main"
  = w_refs Examples.w0 !! "refs/heads/main".
Proof.
  apply (update_tips_writes_tracking_refs_only Examples.E0
           Examples.push_done None Examples.w0 "refs/heads/main").
  apply Forall_cons. split; [vm_compute; discriminate|].
  apply Forall_cons. split; [vm_compute; discriminate|].
  apply Forall_nil_2.
Defined.

(** X15.  Tip reconciliation talks to the outside through the tip
    callback only: what it adds to the log are calls of that callback,
    at most one per status, and nothing at all when no callback is
    registered; neither the negotiation callback nor the transport is
    called. *)
Theorem update_tips_calls_tip_callback_only (E : env) (push : git_push)
    (callbacks : option git_remote_callbacks) (w : world) :
  exists evs,
    w_log (git_push_update_tips E push callbacks w).2 = w_log w ++ evs /\
    Forall is_update_tips evs /\
    (length evs <= length (status push))%nat /\
    (callbacks ≫= update_tips = None -> evs = []).
Proof.
  unfold git_push_update_tips.
  assert (H : forall l st, exists evs,
    w_log (t_world (foreach (update_tips_body E push callbacks) l st).2)
      = w_log (t_world st) ++ evs /\
    Forall is_update_tips evs /\
    (length evs <= length l)%nat /\
    (callbacks ≫= update_tips = None -> evs = [])).
  { induction l as [|s l IH]; intros st; cbn.
    - exists []. rewrite app_nil_r. repeat split; by try constructor.
    - destruct (update_tips_body_log E push callbacks st s)
        as (evs1 & Hlog1 & Hall1 & Hlen1 & Hnone1).
      destruct (update_tips_body E push callbacks st s) as [[] st'];
        cbn in Hlog1.
      + destruct (IH st') as (evs2 & Hlog2 & Hall2 & Hlen2 & Hnone2).
        exists (evs1 ++ evs2). rewrite Hlog2, Hlog1, <- app_assoc.
        split; [done|]. split; [by apply Forall_app|].
        split; [rewrite length_app; lia|].
        intros Hn. by rewrite Hnone1, Hnone2.
      + exists evs1. split; [done|]. split; [done|].
        split; [lia | done]. }
  destruct (H (status push) {| t_world := w; t_error := 0 |})
    as (evs & Hlog & Hrest).
  exists evs. split; [|done].
  by destruct (foreach _ _ _) as [[] st'].
Qed.

(** ** The push as a whole *)

Section PushFacts.

Variable E : env.
Variable callbacks : option git_remote_callbacks.

(** What [do_push] does from the enumeration on. *)
Lemma do_push_send_shape
    (tpush : git_push -> option git_remote_callbacks -> Z * git_push)
    (w : world) (push : git_push) (pb0 : git_packbuilder) :
  let out := do_push_send E tpush callbacks w push pb0 in
  pb out.1.2 = None /\
  ((out.1.1 < 0 /\ out.2 = w) \/
   exists objects ss, out.2 = log_event w (EvTransportPush objects ss)).
Proof.
  unfold do_push_send.
  destruct (queue_objects E push pb0) as [error pb1].
  destruct (error <? 0) eqn:Herr; cbn.
  - split; [done|]. left. split; [by apply Z.ltb_lt | done].
  - destruct (tpush _ _) as [error' push']. cbn.
    split; [done|]. right. by eexists _, _.
Qed.

Lemma do_push_shape (w : world) (push : git_push) :
  let out := do_push E callbacks w push in
  w_refs out.2 = w_refs w /\
  pb out.1.2 = None /\
  exists evs,
    w_log out.2 = w_log w ++ evs /\
    push_events evs /\
    (0 <= out.1.1 -> ends_in_transport evs).
Proof.
  assert (Hnil : forall (p : git_push) (e : Z), e < 0 ->
    w_refs w = w_refs w /\ pb (set_pb p None) = None /\
    exists evs, w_log w = w_log w ++ evs /\ push_events evs /\
                (0 <= e -> ends_in_transport evs)).
  { intros p e He. split; [done|]. split; [done|]. exists [].
    rewrite app_nil_r. split; [done|]. split; [done|]. lia. }
  assert (Hsend : forall tpush w1 p pb0 pre,
    w_refs w1 = w_refs w -> w_log w1 = w_log w ++ pre ->
    pre = [] \/ (exists us, pre = [EvNegotiation us]) ->
    let out := do_push_send E tpush callbacks w1 p pb0 in
    w_refs out.2 = w_refs w /\ pb out.1.2 = None /\
    exists evs, w_log out.2 = w_log w ++ evs /\ push_events evs /\
                (0 <= out.1.1 -> ends_in_transport evs)).
  { intros tpush w1 p pb0 pre Hr Hl Hpre.
    pose proof (do_push_send_shape tpush w1 p pb0) as [Hpb Hcase].
    cbn in *. split.
    { destruct Hcase as [[_ ->]|(o & ss & ->)]; done. }
    split; [done|].
    destruct Hcase as [[Hneg ->]|(o & ss & ->)].
    - exists pre. split; [done|]. split; [|lia].
      destruct Hpre as [->|[us ->]]; done.
    - exists (pre ++ [EvTransportPush o ss]). cbn.
      rewrite Hl, <- app_assoc. split; [done|]. split.
      + destruct Hpre as [->|[us ->]]; done.
      + intros _. exists o, ss. by rewrite last_snoc. }
  unfold do_push.
  destruct (transport_push E) as [tpush|]; [|by apply Hnil].
  destruct (packbuilder_new_fault E); [by apply Hnil|].
  destruct (match callbacks with Some _ => _ | None => _ end);
    [by apply Hnil|].
  unfold do_push_work.
  destruct (calculate_work E w push) as [error push1].
  destruct (error <? 0) eqn:Herr.
  { apply Hnil. by apply Z.ltb_lt. }
  destruct (callbacks ≫= push_negotiation) as [cb|].
  - cbn zeta. destruct (cb (updates push1) <? 0) eqn:Hcb.
    + cbn. split; [done|]. split; [done|].
      exists [EvNegotiation (updates push1)].
      split; [done|]. split; [done|]. apply Z.ltb_lt in Hcb. lia.
    + apply (Hsend _ _ _ _ [EvNegotiation (updates push1)]);
        [done | done | right; by eexists].
  - apply (Hsend _ _ _ _ []); [done | by rewrite app_nil_r | by left].
Qed.

End PushFacts.

(** X16.  One [do_push], however it ends: the reference database is not
    written; the session has no pack builder afterwards; what happened
    outside is at most one call of the negotiation callback followed by at
    most one call of the transport, in this order; and when the value
    returned is not negative the transport was called, last of all. *)
Theorem do_push_effects (E : env) (callbacks : option git_remote_callbacks)
    (w : world) (push : git_push) :
  let out := do_push E callbacks w push in
  w_refs out.2 = w_refs w /\
  pb out.1.2 = None /\
  (exists evs,
     w_log out.2 = w_log w ++ evs /\
     push_events evs /\
     (0 <= out.1.1 -> ends_in_transport evs)) /\
  (0 <= out.1.1 -> transmitted out.2).
Proof.
  destruct (do_push_shape E callbacks w push)
    as (Hrefs & Hpb & evs & Hlog & Hev & Hend).
  cbn zeta. split; [done|]. split; [done|]. split.
  - exists evs. by repeat split.
  - intros Hret. destruct (Hend Hret) as (objects & ss & Hlast).
    exists objects, ss. rewrite Hlog. apply elem_of_app. right.
    apply last_Some in Hlast as [l' ->].
    apply elem_of_app. right. by apply list_elem_of_singleton.
Qed.

(** X17.  [git_push_finish] does not write the reference database,
    however it ends.  When the value it returns is not negative, the
    transport was called in this very run and the session says that the
    remote unpacked the pack. *)
Theorem finish_success_means_unpacked (E : env)
    (callbacks : option git_remote_callbacks) (w : world) (push : git_push) :
  let out := git_push_finish E callbacks w push in
  w_refs out.2 = w_refs w /\
  (0 <= out.1.1 ->
   unpack_ok out.1.2 = true /\
   exists evs, w_log out.2 = w_log w ++ evs /\ ends_in_transport evs).
Proof.
  unfold git_push_finish.
  destruct (if connected (remote push) then _ else _) as [[]|e].
  2:{ cbn. split; [done | lia]. }
  unfold filter_refs.
  destruct (git_remote_ls E) as [heads|e].
  2:{ cbn. split; [done | lia]. }
  replace (0 <? 0) with false by done. cbn [connected].
  pose proof (do_push_shape E callbacks w
                (set_remote push {| refs := heads; connected := true |}))
    as (Hrefs & _ & evs & Hlog & _ & Hend).
  destruct (do_push E callbacks w _) as [[error push'] w'] eqn:Hdo.
  cbn in Hrefs, Hlog, Hend.
  destruct (error <? 0) eqn:Herr.
  { cbn. split; [done|]. apply Z.ltb_lt in Herr. lia. }
  apply Z.ltb_ge in Herr.
  destruct (unpack_ok push') eqn:Hun; cbn.
  - split; [done|]. intros _. split; [done|]. exists evs. by split; [|apply Hend].
  - split; [done | lia].
Qed.

(** ** Reading the statuses *)

Lemma status_foreach_loop (cb : string -> option string -> Z)
    (l : list push_status) (st : fstate) :
  foreach (status_foreach_body cb) l st =
    match list_find (fun s => cb (ref s) (msg s) <> 0) l with
    | Some (i, s) =>
        (GotoOnError,
         {| f_seen := f_seen st ++ take (S i) l;
            f_error := cb (ref s) (msg s) |})
    | None => (Continue, {| f_seen := f_seen st ++ l; f_error := f_error st |})
    end.
Proof.
  revert st. induction l as [|x l IH]; intros st; cbn.
  - rewrite app_nil_r. by destruct st.
  - unfold status_foreach_body at 1.
    destruct (decide (cb (ref x) (msg x) <> 0)) as [Hx|Hx].
    + apply Z.eqb_neq in Hx. rewrite Hx. cbn. by rewrite take_0.
    + assert (Hz : cb (ref x) (msg x) = 0) by lia.
      rewrite Hz. cbn. rewrite IH. cbn.
      destruct (list_find _ l) as [[i s]|]; cbn.
      * by rewrite <- app_assoc.
      * by rewrite <- app_assoc.
Qed.

(** X18.  [git_push_status_foreach] calls the callback on the statuses of
    the session in their order, with the ref and the message of each.  It
    stops at the first status for which the callback returns a value other
    than 0, positive or negative, and returns that value; the statuses
    after it are not shown to the callback.  When the callback returns 0
    throughout, every status was shown and 0 is returned. *)
Theorem status_foreach_stops_at_first_nonzero (push : git_push)
    (cb : string -> option string -> Z) :
  git_push_status_foreach push cb =
    match list_find (fun s => cb (ref s) (msg s) <> 0) (status push) with
    | Some (i, s) => (cb (ref s) (msg s), take (S i) (status push))
    | None => (0, status push)
    end.
Proof.
  unfold git_push_status_foreach. rewrite status_foreach_loop.
  by destruct (list_find _ _) as [[i s]|].
Qed.

(** ** Running twice, pushing one destination twice *)

Lemma calculate_work_loop_again (E : env) (w : world)
    (heads : list git_remote_head) (todo done : list push_spec)
    (ups : list git_push_update) :
  Forall2 (resolved E w heads) todo done ->
  calculate_work_loop E w heads done ups
    = (0, done, ups ++ map add_update done).
Proof.
  intros Hall. revert ups.
  induction Hall as [|spec spec' todo done Hres _ IH]; intros ups; cbn.
  - by rewrite app_nil_r.
  - destruct Hres as (Hrs & Hl & Hr).
    assert (Hhead : matching_head heads spec' = matching_head heads spec).
    { unfold matching_head. by rewrite Hrs. }
    assert (Hsrc : (if negb (String.eqb (src (refspec spec')) "")
                    then git_reference_name_to_id E w (src (refspec spec'))
                    else Ok (loid spec')) = Ok (loid spec')).
    { rewrite Hrs. by destruct (negb _). }
    rewrite Hsrc, Hhead.
    assert (Hsame : {| refspec := refspec spec'; loid := loid spec';
                       roid := match matching_head heads spec with
                               | Some head => oid head
                               | None => roid spec'
                               end |} = spec').
    { destruct spec' as [rs l r]. cbn in *. f_equal.
      by destruct (matching_head heads spec). }
    rewrite Hsame, IH. cbn. by rewrite <- app_assoc.
Qed.

(** X19.  Work resolution run a second time on a session it resolved, the
    references and the heads being the same: it succeeds again and leaves
    the specs as they are, but appends one more update per spec, so every
    spec has two updates of the same content in the list handed to the
    negotiation callback. *)
Theorem work_resolution_twice (E : env) (w : world) (push push1 : git_push) :
  calculate_work E w push = (0, push1) ->
  calculate_work E w push1
    = (0, set_updates push1
            (updates push ++ map add_update (specs push1) ++
             map add_update (specs push1))).
Proof.
  intros H.
  destruct (calculate_work_ok E w push push1 H) as [Hall Hups].
  assert (Hremote : remote push1 = remote push).
  { unfold calculate_work in H.
    destruct (calculate_work_loop _ _ _ _ _) as [[e ss] us].
    by inversion H. }
  unfold calculate_work. rewrite Hremote.
  rewrite (calculate_work_loop_again E w _ _ _ _ Hall).
  rewrite Hups, <- app_assoc. unfold set_updates. cbn.
  by rewrite Hremote.
Qed.

Lemma work_resolution_twice_witness :
  let push1 := (calculate_work Examples.E0 Examples.w0 Examples.push_main).2 in
  calculate_work Examples.E0 Examples.w0 push1
    = (0, set_updates push1
            (updates Examples.push_main ++ map add_update (specs push1) ++
             map add_update (specs push1))).
Proof.
  intros push1.
  apply (work_resolution_twice Examples.E0 Examples.w0 Examples.push_main
           push1).
  reflexivity.
Defined.

Lemma find_later_duplicate (ss1 mid ss2 : list push_spec) (s1 s2 : push_spec)
    (r : string) :
  dst (refspec s1) = dst (refspec s2) ->
  find (fun s => String.eqb (dst (refspec s)) r) (ss1 ++ s1 :: mid ++ s2 :: ss2)
    = find (fun s => String.eqb (dst (refspec s)) r) (ss1 ++ s1 :: mid ++ ss2).
Proof.
  intros Hd. induction ss1 as [|x ss1 IH]; cbn.
  - destruct (String.eqb (dst (refspec s1)) r) eqn:H1; [done|].
    induction mid as [|y mid IHm]; cbn.
    + by rewrite <- Hd, H1.
    + by destruct (String.eqb (dst (refspec y)) r).
  - by destruct (String.eqb (dst (refspec x)) r).
Qed.

(** X20.  Two specs of one session with the same destination: tip
    reconciliation looks for the spec of a status from the front and
    stops at the first with that destination, so the later spec is never
    used; [git_push_update_tips] does and returns the same with the later
    spec taken out of the session. *)
Theorem duplicate_destination_first_wins (E : env) (push : git_push)
    (callbacks : option git_remote_callbacks) (w : world)
    (ss1 mid ss2 : list push_spec) (s1 s2 : push_spec) :
  specs push = ss1 ++ s1 :: mid ++ s2 :: ss2 ->
  dst (refspec s1) = dst (refspec s2) ->
  git_push_update_tips E push callbacks w
    = git_push_update_tips E (set_specs push (ss1 ++ s1 :: mid ++ ss2))
        callbacks w.
Proof.
  intros Hspecs Hd.
  assert (Hbody : forall st s,
    update_tips_body E push callbacks st s
      = update_tips_body E (set_specs push (ss1 ++ s1 :: mid ++ ss2))
          callbacks st s).
  { intros st s. unfold update_tips_body. cbn [specs set_specs].
    rewrite Hspecs. by rewrite (find_later_duplicate ss1 mid ss2 s1 s2 _ Hd). }
  unfold git_push_update_tips. cbn [status set_specs].
  assert (Hloop : forall l st,
    foreach (update_tips_body E push callbacks) l st
      = foreach (update_tips_body E
                   (set_specs push (ss1 ++ s1 :: mid ++ ss2)) callbacks) l st).
  { induction l as [|s l IH]; intros st; cbn; [done|].
    rewrite <- Hbody.
    destruct (update_tips_body E push callbacks st s) as [[] st'];
      [apply IH | done]. }
  by rewrite Hloop.
Qed.

Lemma duplicate_destination_first_wins_witness :
  git_push_update_tips Examples.E0 Examples.push_duplicate None Examples.w0
    = git_push_update_tips Examples.E0
        (set_specs Examples.push_duplicate
           ([Examples.spec_delete] ++ Examples.spec_main :: [] ++ []))
        None Examples.w0.
Proof.
  apply (duplicate_destination_first_wins Examples.E0
           Examples.push_duplicate None Examples.w0
           [Examples.spec_delete] [] [] Examples.spec_main
           Examples.spec_forced).
  - reflexivity.
  - reflexivity.
Defined.

(** ** Deletions *)

(** C8, as the spec states it, fails for a deletion that stands behind
    another spec of the same destination (both are taken when they are
    added): tip reconciliation finds the earlier spec for the accepted
    status, and the tracking reference is set to that spec's local id
    instead of being deleted. *)
Lemma deletion_as_stated_fails :
  ~ deletion_as_stated Examples.E0 Examples.push_shadowed None Examples.w0
      Examples.spec_delete_main Examples.status_main
      "refs/remotes/origin/main".
Proof.
  unfold deletion_as_stated. intros H.
  assert (Hnow :
    w_refs (git_push_update_tips Examples.E0 Examples.push_shadowed None
              Examples.w0).2 !! "refs/remotes/origin/main"
    = Some Examples.c2) by (vm_compute; reflexivity).
  rewrite H in Hnow; try reflexivity; try discriminate.
  - apply list_elem_of_further, list_elem_of_here.
  - apply list_elem_of_here.
Qed.

(** C8, amended.  A spec that [parse_refspec] made of a refspec with an
    empty source is in the session: its local id is all-zero from the
    start and still is after work resolution; the enumeration passes the
    spec over, [queue_objects] returning what it returns without it; and
    when the remote accepts the update, [git_push_update_tips] leaves the
    tracking reference [refname] absent, provided that the spec is the
    first of the session with its destination, that a fetch refspec maps
    the ref to [refname], that the loop reaches the status, that no later
    status is mapped to [refname], and that the reference database
    answers without a failure of its own. *)
Theorem deletion_property (E : env) (w : world) (push push1 : git_push)
    (parse : string -> result git_refspec)
    (revparse : string -> result git_object) (str : string)
    (i : nat) (spec : push_spec) :
  parse_refspec parse revparse str = Ok spec ->
  src (refspec spec) = "" ->
  specs push !! i = Some spec ->
  calculate_work E w push = (0, push1) ->
  exists spec1,
    specs push1 !! i = Some spec1 /\
    refspec spec1 = refspec spec /\
    loid spec1 = 0%N /\
    (forall st, queue_objects_body E st spec1 = (Continue, st)) /\
    (forall pb0,
       queue_objects E push1 pb0
         = queue_objects E
             (set_specs push1
                (take i (specs push1) ++ drop (S i) (specs push1))) pb0) /\
    (forall push2 callbacks w1 before accepted after st fetch_spec refname,
       specs push2 = specs push1 ->
       status push2 = before ++ accepted :: after ->
       msg accepted = None ->
       git_remote__matching_refspec E (ref accepted) = Some fetch_spec ->
       git_refspec_transform E fetch_spec (ref accepted) = Ok refname ->
       find (fun s => String.eqb (dst (refspec s)) (ref accepted))
         (specs push1) = Some spec1 ->
       refdb_fault E RefLookup refname = None ->
       refdb_fault E RefDelete refname = None ->
       foreach (update_tips_body E push2 callbacks) before
         {| t_world := w1; t_error := 0 |} = (Continue, st) ->
       Forall (fun s => tracking_name E s <> Some refname) after ->
       w_refs (git_push_update_tips E push2 callbacks w1).2 !! refname
         = None).
Proof.
  intros Hparse Hsrc Hi Hwork.
  destruct (parse_refspec_zero parse revparse str spec Hparse) as [Hl _].
  destruct (calculate_work_ok E w push push1 Hwork) as [Hall _].
  destruct (Forall2_lookup_l _ _ _ _ _ Hall Hi) as (spec1 & Hi1 & Hres).
  destruct Hres as (Hrs & Hloid & _).
  rewrite Hsrc in Hloid. cbn in Hloid.
  assert (Hz : loid spec1 = 0%N) by congruence.
  assert (Hskip : forall st, queue_objects_body E st spec1 = (Continue, st)).
  { intros st. apply skip_deleted. by apply git_oid_iszero_spec. }
  exists spec1. split; [done|]. split; [done|]. split; [done|].
  split; [done|]. split.
  - intros pb0. unfold queue_objects. cbn [specs set_specs remote].
    assert (Hs : foreach (queue_objects_body E) (specs push1)
                   (queue_objects_init pb0)
                 = foreach (queue_objects_body E)
                     (take i (specs push1) ++ drop (S i) (specs push1))
                     (queue_objects_init pb0)).
    { rewrite <- (foreach_skip _ _ _ spec1 _ Hskip).
      by rewrite (take_drop_middle _ _ _ Hi1). }
    by rewrite Hs.
  - intros push2 callbacks w1 before accepted after st fetch_spec refname
      Hspecs2 Hstatus Hmsg Hfetch Htrans Hfind Hlook Hdel Hbefore Hafter.
    rewrite <- Hspecs2 in Hfind.
    assert (Hgone :
      w_refs (t_world (update_tips_body E push2 callbacks st accepted).2)
        !! refname = None).
    { rewrite (update_tips_body_found E push2 callbacks st accepted
                 fetch_spec refname spec1 Hmsg Hfetch Htrans Hfind).
      rewrite (update_remote_ref_delete E _ _ _
                 (proj2 (git_oid_iszero_spec _) Hz) Hlook Hdel).
      destruct (w_refs (t_world st) !! refname) eqn:Href; [|done].
      cbn. destruct (callbacks ≫= update_tips) as [cb|]; cbn.
      - destruct (_ <? 0); cbn; apply lookup_delete_eq.
      - apply lookup_delete_eq. }
    assert (Hend :
      w_refs (t_world
                (foreach (update_tips_body E push2 callbacks)
                   (status push2) {| t_world := w1; t_error := 0 |}).2)
        !! refname = None).
    { rewrite Hstatus, (foreach_app _ _ _ _ _ Hbefore). cbn.
      destruct (update_tips_body E push2 callbacks st accepted)
        as [[] st'] eqn:Hb; cbn in Hgone; [|done].
      by rewrite (foreach_tips_frame E push2 callbacks after st' refname
                    Hafter). }
    unfold git_push_update_tips.
    by destruct (foreach (update_tips_body E push2 callbacks)
                   (status push2) _) as [[] st'].
Qed.

Lemma deletion_property_witness :
  (forall st,
     queue_objects_body Examples.E0 st
       (Examples.mk_spec "" "refs/heads/old" false 0%N Examples.c1)
     = (Continue, st)) /\
  w_refs (git_push_update_tips Examples.E0 Examples.push_delete_done None
            Examples.w0).2 !! "refs/remotes/origin/old" = None.
Proof.
  destruct (deletion_property Examples.E0 Examples.w0 Examples.push_delete
              (calculate_work Examples.E0 Examples.w0 Examples.push_delete).2
              Examples.parse Examples.revparse ":refs/heads/old"
              1 Examples.spec_delete_new)
    as (spec1 & Hi & _ & _ & Hbody & _ & Htips).
  - reflexivity.
  - reflexivity.
  - reflexivity.
  - reflexivity.
  - assert (Hspec : spec1
                    = Examples.mk_spec "" "refs/heads/old" false 0%N
                        Examples.c1).
    { vm_compute in Hi. by inversion Hi. }
    subst spec1. split; [exact Hbody|].
    apply (Htips Examples.push_delete_done None Examples.w0
             [Examples.status_main] Examples.status_old []
             (foreach (update_tips_body Examples.E0 Examples.push_delete_done
                         None) [Examples.status_main]
                {| t_world := Examples.w0; t_error := 0 |}).2
             {| src := "refs/heads/old"; dst := "refs/remotes/origin/old";
                force := true |}
             "refs/remotes/origin/old").
    + reflexivity.
    + reflexivity.
    + reflexivity.
    + reflexivity.
    + reflexivity.
    + reflexivity.
    + reflexivity.
    + reflexivity.
    + reflexivity.
    + apply Forall_nil_2.
Defined.
